(** * Sliding-window rate limiter over a Redis sorted set

    A shallow embedding of [rate_limiter.py] (class [RateLimiter]) and of its
    near-duplicate in [app.py], together with the part of Redis they drive:
    one sorted set per identifier, whose members are the string forms of the
    request timestamps and whose scores are the timestamps themselves, plus a
    per-key expiry.

    Conventions of the model.
    - A clock reading ([time.time()]) is an integer number of microseconds
      since the epoch.  Window lengths are whole seconds, as in the source;
      on such values the arithmetic [rate_limiter.py] performs (subtracting
      the window, comparing scores) is exact, as it is in the source on the
      readings of the present day, where the difference of a reading and a
      window is again a floating-point number.  The further [0.00001] that
      [app.py] subtracts is not: see [App].
    - Every Redis command runs at the instant [now] read by the call that
      issues it: the client clock and the server clock are one clock.
    - [str] is the string form of a timestamp.  All that the model uses of it
      is that distinct timestamps have distinct string forms. *)

From Stdlib Require Import ZArith Lia Ascii.
From stdpp Require Import base option list gmap strings pretty relations.

#[local] Open Scope Z_scope.

(** ** Time *)

Definition ticks_per_second : Z := 1000000.

(** A whole number of seconds, in clock ticks. *)
Definition seconds (n : Z) : Z := n * ticks_per_second.

(** Python's [str(current_time)]. *)
Definition str (t : Z) : string := pretty t.

(** Python's [int(x)] on a time value: truncation to whole seconds. *)
Definition int (t : Z) : Z := Z.quot t ticks_per_second.

(** Python's [x or d] for an optional integer: [None] and [0] are falsy. *)
Definition py_or (x : option Z) (d : Z) : Z :=
  match x with
  | Some v => if decide (v = 0) then d else v
  | None => d
  end.

(** ** The store *)

(** One Redis key holding a sorted set: member ↦ score, and the absolute time
    at which the key expires, if a time-to-live was set. *)
Record zkey := ZKey {
  members : gmap string Z;
  expire_at : option Z
}.

Abbreviation store := (gmap string zkey).

Module Redis.

(** A command is a state transformer on the store that returns a reply. *)
Definition redis (A : Type) : Type := store → A * store.

Definition ret {A} (a : A) : redis A := λ s, (a, s).

Definition bind {A B} (c : redis A) (k : A → redis B) : redis B :=
  λ s, let '(a, s') := c s in k a s'.

(** A key whose expiry time has passed is gone for every command. *)
Definition expired (now : Z) (k : zkey) : bool :=
  match expire_at k with
  | Some d => bool_decide (d < now)
  | None => false
  end.

Definition live (now : Z) (o : option zkey) : option zkey :=
  match o with
  | Some k => if expired now k then None else Some k
  | None => None
  end.

(** Redis never keeps an empty sorted set: the key disappears with its
    last member. *)
Definition keep_nonempty (m : gmap string Z) (ttl : option Z) : option zkey :=
  if decide (m = ∅) then None else Some (ZKey m ttl).

(** Every command used by the limiter reads and writes a single key. *)
Definition on_key {A} (now : Z) (key : string)
    (f : option zkey → A * option zkey) : redis A :=
  λ s, let '(reply, o) := f (live now (s !! key)) in
       (reply, partial_alter (λ _, o) key s).

(** The members a range delete leaves in place: those whose score is
    outside [lo, hi]. *)
Definition outside (lo hi : Z) (m : gmap string Z) : gmap string Z :=
  filter (λ p, ¬ (lo ≤ p.2 ≤ hi)) m.

(** ZREMRANGEBYSCORE key lo hi: replies with the number of members removed. *)
Definition zremrangebyscore (now : Z) (key : string) (lo hi : Z) : redis Z :=
  on_key now key (λ o,
    match o with
    | None => (0, None)
    | Some k =>
        let kept := outside lo hi (members k) in
        (Z.of_nat (size (members k)) - Z.of_nat (size kept),
         keep_nonempty kept (expire_at k))
    end).

(** ZCARD key. *)
Definition zcard (now : Z) (key : string) : redis Z :=
  on_key now key (λ o,
    match o with
    | None => (0, None)
    | Some k => (Z.of_nat (size (members k)), Some k)
    end).

(** ZADD key score member: an existing member has its score replaced. *)
Definition zadd (now : Z) (key member : string) (score : Z) : redis Z :=
  on_key now key (λ o,
    match o with
    | None => (1, Some (ZKey {[ member := score ]} None))
    | Some k =>
        ((if members k !! member is Some _ then 0 else 1),
         Some (ZKey (<[ member := score ]> (members k)) (expire_at k)))
    end).

(** EXPIRE key secs: a time-to-live that is not positive deletes the key. *)
Definition expire (now : Z) (key : string) (secs : Z) : redis bool :=
  on_key now key (λ o,
    match o with
    | None => (false, None)
    | Some k =>
        if bool_decide (secs ≤ 0) then (true, None)
        else (true, Some (ZKey (members k) (Some (now + seconds secs))))
    end).

(** ZREM key member. *)
Definition zrem (now : Z) (key member : string) : redis Z :=
  on_key now key (λ o,
    match o with
    | None => (0, None)
    | Some k =>
        match members k !! member with
        | None => (0, Some k)
        | Some _ => (1, keep_nonempty (delete member (members k)) (expire_at k))
        end
    end).

(** DEL key. *)
Definition del (now : Z) (key : string) : redis Z :=
  on_key now key (λ o,
    match o with
    | None => (0, None)
    | Some _ => (1, None)
    end).

End Redis.

Notation "'do' x <- c ; k" := (Redis.bind c (λ x, k))
  (at level 10, x name, c at level 100, k at level 200).

(** ** The limiter *)

(** [RateLimiterConfig], as far as the limiter reads it. *)
Record RateLimiterConfig := Config {
  default_requests : Z;
  default_window : Z
}.

(** The metadata dictionary returned with every verdict. *)
Record metadata := Metadata {
  limit : Z;
  remaining : Z;
  reset_time : Z;
  retry_after : Z
}.

(** [f"rate_limit:{identifier}"]. *)
Definition key_of (identifier : string) : string := "rate_limit:" +:+ identifier.

(** [rate_limiter.py] and [app.py] both define [RateLimiter] with the same
    text, except for what is subtracted from [window_start]: nothing more
    than the window in [rate_limiter.py], a further [0.00001] seconds in
    [app.py].  The common text is modelled once, with what is taken off
    besides the window ([epsilon], in ticks) as a parameter. *)
Module SlidingWindow.
Import Redis.

(** The four commands queued on the pipeline, and [pipe.execute()]:
    the replies, in order. *)
Definition pipeline (key : string) (window_start current_time window_seconds : Z)
    : redis (Z * Z * Z * bool) :=
  do removed <- zremrangebyscore current_time key 0 window_start;
  do card <- zcard current_time key;
  do added <- zadd current_time key (str current_time) current_time;
  do ok <- expire current_time key window_seconds;
  ret (removed, card, added, ok).

Definition is_allowed (epsilon : Z) (config : RateLimiterConfig)
    (identifier : string) (max_requests window_seconds : option Z)
    (current_time : Z) : redis (bool * metadata) :=
  let max_requests := py_or max_requests (default_requests config) in
  let window_seconds := py_or window_seconds (default_window config) in
  let key := key_of identifier in
  let window_start := current_time - seconds window_seconds - epsilon in
  do results <- pipeline key window_start current_time window_seconds;
  let request_count := results.1.1.2 in
  let reset_time := int (current_time + seconds window_seconds) in
  let remaining := Z.max 0 (max_requests - request_count - 1) in
  let metadata :=
    {| limit := max_requests;
       remaining := remaining;
       reset_time := reset_time;
       retry_after := if bool_decide (max_requests ≤ request_count)
                      then window_seconds else 0 |} in
  let is_allowed := bool_decide (request_count < max_requests) in
  if is_allowed then ret (is_allowed, metadata)
  else
    do _ <- zrem current_time key (str current_time);
    ret (is_allowed, metadata).

Definition reset (identifier : string) (current_time : Z) : redis bool :=
  let key := key_of identifier in
  do n <- del current_time key;
  ret (bool_decide (n ≠ 0)).

Definition get_usage (epsilon : Z) (config : RateLimiterConfig)
    (identifier : string) (window_seconds : option Z) (current_time : Z) : redis Z :=
  let window_seconds := py_or window_seconds (default_window config) in
  let key := key_of identifier in
  let window_start := current_time - seconds window_seconds - epsilon in
  do _ <- zremrangebyscore current_time key 0 window_start;
  zcard current_time key.

End SlidingWindow.

(** [rate_limiter.py]: [window_start = current_time - window_seconds]. *)
Module RateLimiter.
Definition is_allowed := SlidingWindow.is_allowed 0.
Definition reset := SlidingWindow.reset.
Definition get_usage := SlidingWindow.get_usage 0.
End RateLimiter.

(** [app.py]: [window_start = current_time - window_seconds - 0.00001],
    computed in binary floating point.  The two subtractions round, so what
    they take off [current_time - window_seconds] is [0.00001] seconds only
    up to the rounding of that one call: it is not a fixed number of ticks.
    Floating point is not modelled.  What a call takes off is an argument of
    the call, [epsilon], in ticks, and nothing is assumed of it beyond what a
    statement says. *)
Module App.
Definition is_allowed (epsilon : Z) := SlidingWindow.is_allowed epsilon.
Definition reset := SlidingWindow.reset.
Definition get_usage (epsilon : Z) := SlidingWindow.get_usage epsilon.
End App.


(** The events stored for an identifier, and those of them a command issued
    at [now] still finds. *)
Definition stored (s : store) (identifier : string) : gmap string Z :=
  match s !! key_of identifier with
  | Some k => members k
  | None => ∅
  end.


(** The expiry time of an identifier's key, if the key exists and has one. *)
Definition expiry (s : store) (identifier : string) : option Z :=
  s !! key_of identifier ≫= expire_at.

(** ** Sequences of calls *)

(** Successive [is_allowed] calls for one identifier under one policy, one
    call per clock reading, as in the loops of [test_rate_limiter.py]. *)
Fixpoint check_all (cfg : RateLimiterConfig) (identifier : string)
    (max_requests window_seconds : option Z) (times : list Z)
    : Redis.redis (list (bool * metadata)) :=
  match times with
  | [] => Redis.ret []
  | now :: times =>
      do r <- RateLimiter.is_allowed cfg identifier max_requests window_seconds now;
      do rs <- check_all cfg identifier max_requests window_seconds times;
      Redis.ret (r :: rs)
  end.

(** The clock readings of sequential calls: each later than the one before. *)
Fixpoint increasing (times : list Z) : bool :=
  match times with
  | a :: (b :: _) as rest => bool_decide (a < b) && increasing rest
  | _ => true
  end.

(** No reading is a whole window or more after the first one, so no event
    recorded by an earlier call ages out before a later call. *)
Definition within_window (window_seconds : Z) (times : list Z) : bool :=
  match times with
  | [] => true
  | first :: _ => forallb (λ t, bool_decide (t - first < seconds window_seconds)) times
  end.

(** Every one of [times] is at or before [t]. *)
Definition not_after (t : Z) (times : list Z) : bool :=
  forallb (λ t', bool_decide (t' ≤ t)) times.

(** The string form of the reading [now] is not yet a member stored under
    the key. *)
Definition fresh (now : Z) (o : option zkey) : bool :=
  match o with
  | Some k => bool_decide (members k !! str now = None)
  | None => true
  end.

(** The three operations of the engine, as calls of a trace. *)
Inductive call :=
  | IsAllowed (identifier : string) (max_requests window_seconds : option Z)
  | DoReset (identifier : string)
  | GetUsage (identifier : string) (window_seconds : option Z).

Inductive reply :=
  | Verdict (allowed : bool) (md : metadata)
  | WasReset (existed : bool)
  | Count (n : Z).

Definition subject (c : call) : string :=
  match c with
  | IsAllowed identifier _ _ => identifier
  | DoReset identifier => identifier
  | GetUsage identifier _ => identifier
  end.

Definition perform (cfg : RateLimiterConfig) (c : call) (now : Z)
    : Redis.redis reply :=
  match c with
  | IsAllowed identifier m w =>
      do r <- RateLimiter.is_allowed cfg identifier m w now;
      Redis.ret (Verdict r.1 r.2)
  | DoReset identifier =>
      do b <- RateLimiter.reset identifier now;
      Redis.ret (WasReset b)
  | GetUsage identifier w =>
      do n <- RateLimiter.get_usage cfg identifier w now;
      Redis.ret (Count n)
  end.

(** Running a trace of timed calls, keeping the replies to the calls made on
    [identifier]. *)
Fixpoint observe (cfg : RateLimiterConfig) (identifier : string)
    (trace : list (call * Z)) (s : store) : list reply :=
  match trace with
  | [] => []
  | (c, now) :: trace =>
      let '(r, s') := perform cfg c now s in
      if decide (subject c = identifier)
      then r :: observe cfg identifier trace s'
      else observe cfg identifier trace s'
  end.

(** The calls of a trace that are made on [identifier]. *)
Definition calls_on (identifier : string) (trace : list (call * Z)) : list (call * Z) :=
  filter (λ e, subject e.1 = identifier) trace.

(** The calls of a trace that are not made on [identifier]. *)
Definition calls_off (identifier : string) (trace : list (call * Z)) : list (call * Z) :=
  filter (λ e, subject e.1 ≠ identifier) trace.

(** ** Concurrent calls *)

(** [is_allowed] reaches the store twice: [pipe.execute()] runs the queued
    batch as one transaction, and, on rejection, a separate [zrem] follows.
    Between the two, other clients' commands may run. *)
Module Concurrent.
Import Redis.

(** The first store access of [is_allowed] and the verdict computed from
    its replies. *)
Definition check_batch (cfg : RateLimiterConfig) (identifier : string)
    (max_requests window_seconds : option Z) (current_time : Z)
    : redis (bool * metadata) :=
  let max_requests := py_or max_requests (default_requests cfg) in
  let window_seconds := py_or window_seconds (default_window cfg) in
  let key := key_of identifier in
  let window_start := current_time - seconds window_seconds in
  do results <- SlidingWindow.pipeline key window_start current_time window_seconds;
  let request_count := results.1.1.2 in
  ret (bool_decide (request_count < max_requests),
       {| limit := max_requests;
          remaining := Z.max 0 (max_requests - request_count - 1);
          reset_time := int (current_time + seconds window_seconds);
          retry_after := if bool_decide (max_requests ≤ request_count)
                         then window_seconds else 0 |}).

(** The second store access, made only by a rejected call. *)
Definition check_retract (identifier : string) (current_time : Z) : redis Z :=
  zrem current_time (key_of identifier) (str current_time).

(** A call in flight: not started, rejected and about to retract, or
    returned. *)
Inductive thread :=
  | Pending (max_requests window_seconds : option Z) (current_time : Z)
  | Retracting (current_time : Z) (r : bool * metadata)
  | Returned (r : bool * metadata).

(** One store access by one of the calls in flight on [identifier]. *)
Inductive step (cfg : RateLimiterConfig) (identifier : string)
    : store * list thread → store * list thread → Prop :=
  | step_batch s threads i m w now r s' :
      threads !! i = Some (Pending m w now) →
      check_batch cfg identifier m w now s = (r, s') →
      step cfg identifier (s, threads)
        (s', <[ i := if r.1 then Returned r else Retracting now r ]> threads)
  | step_retract s threads i now r n s' :
      threads !! i = Some (Retracting now r) →
      check_retract identifier now s = (n, s') →
      step cfg identifier (s, threads) (s', <[ i := Returned r ]> threads).

(** The replies of two calls made one after the other, each running to
    completion, in the order first, second. *)
Definition serial (cfg : RateLimiterConfig) (identifier : string)
    (c1 c2 : option Z * option Z * Z) (s : store)
    : (bool * metadata) * (bool * metadata) :=
  let '(r1, s1) := RateLimiter.is_allowed cfg identifier c1.1.1 c1.1.2 c1.2 s in
  let '(r2, _) := RateLimiter.is_allowed cfg identifier c2.1.1 c2.1.2 c2.2 s1 in
  (r1, r2).

(** The replies [r1] and [r2] of two concurrent calls are those of one of
    the two serial orders: the calls took effect one at a time. *)
Definition serializable (cfg : RateLimiterConfig) (identifier : string)
    (c1 c2 : option Z * option Z * Z) (s : store)
    (r1 r2 : bool * metadata) : Prop :=
  (r1, r2) = serial cfg identifier c1 c2 s ∨
  (r2, r1) = serial cfg identifier c2 c1 s.

(** The configurations two calls racing under the policy [(1, w)], with
    readings [t1] and [t2], can reach from an absent key. *)
Definition race_inv (identifier : string) (w t1 t2 : Z)
    (c : store * list thread) : Prop :=
  let P1 := Pending (Some 1) (Some w) t1 in
  let P2 := Pending (Some 1) (Some w) t2 in
  let key := key_of identifier in
  (c.2 = [P1; P2] ∧ c.1 !! key = None) ∨
  (∃ r1, c.2 = [Returned r1; P2] ∧ r1.1 = true ∧
         c.1 !! key = Some (ZKey {[ str t1 := t1 ]} (Some (t1 + seconds w)))) ∨
  (∃ r2, c.2 = [P1; Returned r2] ∧ r2.1 = true ∧
         c.1 !! key = Some (ZKey {[ str t2 := t2 ]} (Some (t2 + seconds w)))) ∨
  (∃ r1 r2, c.2 = [Returned r1; Retracting t2 r2] ∧ r1.1 = true ∧ r2.1 = false) ∨
  (∃ r1 r2, c.2 = [Retracting t1 r1; Returned r2] ∧ r1.1 = false ∧ r2.1 = true) ∨
  (∃ r1 r2, c.2 = [Returned r1; Returned r2] ∧ r1.1 = negb r2.1).

End Concurrent.

(** ** What one call does to its key *)

(** The members a call at [now] counts: those of the live key whose score is
    outside [0, window_start]. *)
Definition window (now window_start : Z) (o : option zkey) : gmap string Z :=
  match Redis.live now o with
  | Some k => Redis.outside 0 window_start (members k)
  | None => ∅
  end.

(** The key as the pipeline leaves it. *)
Definition after_pipeline (now window_start window_seconds : Z) (o : option zkey)
    : option zkey :=
  if bool_decide (window_seconds ≤ 0) then None
  else Some (ZKey (<[ str now := now ]> (window now window_start o))
                  (Some (now + seconds window_seconds))).

(** The window boundary a call computes. *)
Definition window_start (epsilon : Z) (cfg : RateLimiterConfig)
    (window_seconds : option Z) (now : Z) : Z :=
  now - seconds (py_or window_seconds (default_window cfg)) - epsilon.

(** The verdict and metadata a call derives from the count it observed. *)
Definition outcome (max_requests window_seconds now request_count : Z)
    : bool * metadata :=
  (bool_decide (request_count < max_requests),
   {| limit := max_requests;
      remaining := Z.max 0 (max_requests - request_count - 1);
      reset_time := int (now + seconds window_seconds);
      retry_after := if bool_decide (max_requests ≤ request_count)
                     then window_seconds else 0 |}).

(** The key as a whole [is_allowed] call leaves it. *)
Definition after_check (epsilon : Z) (cfg : RateLimiterConfig)
    (max_requests window_seconds : option Z) (now : Z) (o : option zkey)
    : option zkey :=
  let m := py_or max_requests (default_requests cfg) in
  let w := py_or window_seconds (default_window cfg) in
  let ws := window_start epsilon cfg window_seconds now in
  if bool_decide (Z.of_nat (size (window now ws o)) < m)
  then after_pipeline now ws w o
  else if bool_decide (w ≤ 0) then None
  else Redis.keep_nonempty (delete (str now) (window now ws o))
                           (Some (now + seconds w)).

(** The key as a [get_usage] call leaves it. *)
Definition after_usage (epsilon : Z) (cfg : RateLimiterConfig)
    (window_seconds : option Z) (now : Z) (o : option zkey) : option zkey :=
  match Redis.live now o with
  | Some k =>
      Redis.keep_nonempty
        (Redis.outside 0 (window_start epsilon cfg window_seconds now) (members k))
        (expire_at k)
  | None => None
  end.

(** The replies expected from successive calls when the first of them
    observes [k] events and nothing ages out in between. *)
Fixpoint expected (m w k : Z) (times : list Z) : list (bool * metadata) :=
  match times with
  | [] => []
  | t :: times =>
      outcome m w t k :: expected m w (if bool_decide (k < m) then k + 1 else k) times
  end.

Fixpoint count_after (m k : Z) (n : nat) : Z :=
  match n with
  | O => k
  | S n => count_after m (if bool_decide (k < m) then k + 1 else k) n
  end.

(** The calls that were let through. *)
Definition allowed_calls (rs : list (bool * metadata)) : nat :=
  length (filter (λ r, r.1 = true) rs).

(** The key holds exactly the events [z], all recorded between [lo] and
    [last], for every observer from [last] until the window that started at
    [lo] ends. *)
Definition tracks (W lo last : Z) (z : gmap string Z) (o : option zkey) : Prop :=
  (∀ mem sc, z !! mem = Some sc → mem = str sc ∧ lo ≤ sc ≤ last) ∧
  (∀ t, last ≤ t → t < lo + W → window t (t - W) o = z).

(** ** The in-memory limiter of [demo_no_redis.py] *)

(** [SimpleRateLimitMiddleware] keeps, per identifier, the list of the
    readings of the requests it let through, in the module-level
    [request_store] (a [defaultdict(list)]).  It takes its limit and its
    window as they are given: there is no fallback to a default. *)
Module Demo.

Record SimpleRateLimitMiddleware := Simple {
  max_requests : Z;
  window_seconds : Z
}.

Definition _is_allowed (self : SimpleRateLimitMiddleware) (identifier : string)
    (current_time : Z) (request_store : gmap string (list Z))
    : (bool * metadata) * gmap string (list Z) :=
  let window_start := current_time - seconds (window_seconds self) in
  let kept := filter (λ ts, window_start < ts) (default [] (request_store !! identifier)) in
  let request_store := <[ identifier := kept ]> request_store in
  let request_count := Z.of_nat (length kept) in
  let remaining := Z.max 0 (max_requests self - request_count - 1) in
  let metadata :=
    {| limit := max_requests self;
       remaining := remaining;
       reset_time := int (current_time + seconds (window_seconds self));
       retry_after := if bool_decide (max_requests self ≤ request_count)
                      then window_seconds self else 0 |} in
  let is_allowed := bool_decide (request_count < max_requests self) in
  if is_allowed
  then ((is_allowed, metadata), <[ identifier := kept ++ [current_time] ]> request_store)
  else ((is_allowed, metadata), request_store).

(** Successive requests of one client, one per clock reading. *)
Fixpoint check_all (self : SimpleRateLimitMiddleware) (identifier : string)
    (times : list Z) (request_store : gmap string (list Z))
    : list (bool * metadata) * gmap string (list Z) :=
  match times with
  | [] => ([], request_store)
  | now :: times =>
      let '(r, request_store) := _is_allowed self identifier now request_store in
      let '(rs, request_store) := check_all self identifier times request_store in
      (r :: rs, request_store)
  end.

(** The readings stored for an identifier; none when it has no entry. *)
Definition readings (request_store : gmap string (list Z)) (identifier : string) : list Z :=
  default [] (request_store !! identifier).

End Demo.

(** Clock readings that never go back; equal readings are allowed. *)
Fixpoint nondecreasing (times : list Z) : bool :=
  match times with
  | a :: (b :: _) as rest => bool_decide (a ≤ b) && nondecreasing rest
  | _ => true
  end.

(** ** The two limiters side by side *)

(** The sorted set that holds the readings of a list: each reading under its
    string form, with itself as score. *)
Definition encode (l : list Z) : gmap string Z :=
  list_to_map ((λ t, (str t, t)) <$> l).

(** The Redis key [o] holds what the in-memory list [l] holds, after a last
    call at [last] under a window of [W] ticks. *)
Definition mirrors (W last : Z) (l : list Z) (o : option zkey) : Prop :=
  NoDup l ∧ Forall (λ t, 0 ≤ t ≤ last) l ∧
  match o with
  | None => l = []
  | Some k => l ≠ [] ∧ members k = encode l ∧ expire_at k = Some (last + W)
  end.

(** No reading is before the epoch. *)
Definition since_epoch (times : list Z) : bool :=
  forallb (λ t, bool_decide (0 ≤ t)) times.

(** ** Requests and the identifiers derived from them *)

(** The string operations of Python the adapters use.  Header values reach
    the application decoded as Latin-1, one character per byte. *)
Module Py.

(** [str.isspace] on a character below 256. *)
Definition isspace (c : Ascii.ascii) : bool :=
  let n := Ascii.N_of_ascii c in
  ((9 <=? n) && (n <=? 13) || (28 <=? n) && (n <=? 32) || (n =? 133) || (n =? 160))%N.

Fixpoint lstrip (s : string) : string :=
  match s with
  | String c s' => if isspace c then lstrip s' else s
  | EmptyString => EmptyString
  end.

Fixpoint rstrip (s : string) : string :=
  match s with
  | EmptyString => EmptyString
  | String c s' =>
      match rstrip s' with
      | EmptyString => if isspace c then EmptyString else String c EmptyString
      | r => String c r
      end
  end.

(** [s.strip()]. *)
Definition strip (s : string) : string := rstrip (lstrip s).

(** [s.split(sep)[0]]: what comes before the first separator. *)
Fixpoint split_first (sep : Ascii.ascii) (s : string) : string :=
  match s with
  | EmptyString => EmptyString
  | String c s' => if Ascii.eqb c sep then EmptyString else String c (split_first sep s')
  end.

(** [if x:] on an optional string: [None] and the empty string are falsy. *)
Definition truthy (x : option string) : bool :=
  match x with
  | Some (String _ _) => true
  | _ => false
  end.

(** [c in s]. *)
Fixpoint occurs (c : Ascii.ascii) (s : string) : bool :=
  match s with
  | EmptyString => false
  | String c' s' => Ascii.eqb c' c || occurs c s'
  end.

(** [str(n)] on an integer. *)
Definition str_int (n : Z) : string := pretty n.

End Py.

(** What the adapters read of a request: the values [headers.get] returns
    for the two proxy headers, the peer address ([request.client.host], with
    [None] for a request without [client]; [request.remote_addr] in Flask),
    and the path. *)
Record Request := MkRequest {
  x_forwarded_for : option string;
  x_real_ip : option string;
  client_host : option string;
  url_path : string
}.

(** The exception the FastAPI dependencies raise. *)
Record error_detail := Detail {
  detail_error : string;
  detail_limit : Z;
  detail_reset : Z;
  detail_retry_after : Z
}.

Record HTTPException := MkHTTPException {
  status_code : Z;
  detail : error_detail;
  headers : gmap string string
}.

(** The [headers] dictionary of the 429 built from the metadata. *)
Definition rate_limit_exceeded (md : metadata) : HTTPException :=
  {| status_code := 429;
     detail := {| detail_error := "Rate limit exceeded";
                  detail_limit := limit md;
                  detail_reset := reset_time md;
                  detail_retry_after := retry_after md |};
     headers := <[ "X-RateLimit-Limit" := Py.str_int (limit md) ]>
                (<[ "X-RateLimit-Remaining" := "0" ]>
                (<[ "X-RateLimit-Reset" := Py.str_int (reset_time md) ]>
                (<[ "Retry-After" := Py.str_int (retry_after md) ]> ∅))) |}.

(** [middleware_fastapi.py]. *)
Module MiddlewareFastapi.

(** [RateLimitMiddleware._default_identifier]. *)
Definition _default_identifier (request : Request) : string :=
  let forwarded_for := x_forwarded_for request in
  if Py.truthy forwarded_for
  then Py.strip (Py.split_first ","%char (default "" forwarded_for))
  else
    let real_ip := x_real_ip request in
    if Py.truthy real_ip then default "" real_ip
    else match client_host request with
         | Some host => host
         | None => "unknown"
         end.

(** The [_default_identifier] local to [rate_limit_dependency]. *)
Definition dependency_default_identifier (request : Request) : string :=
  let forwarded_for := x_forwarded_for request in
  if Py.truthy forwarded_for
  then Py.strip (Py.split_first ","%char (default "" forwarded_for))
  else match client_host request with
       | Some host => host
       | None => "unknown"
       end.

(** [rate_limit_dependency(...)] applied to a request: the metadata, or the
    429 it raises. *)
Definition rate_limit_dependency (rate_limiter : RateLimiterConfig)
    (max_requests window_seconds : option Z)
    (identifier_func : option (Request → string))
    (request : Request) (current_time : Z) : Redis.redis (HTTPException + metadata) :=
  let identifier_getter := default dependency_default_identifier identifier_func in
  let identifier := identifier_getter request in
  do r <- RateLimiter.is_allowed rate_limiter identifier max_requests window_seconds
            current_time;
  if negb r.1 then Redis.ret (inl (rate_limit_exceeded r.2))
  else Redis.ret (inr r.2).

(** The middleware object: the configuration of its limiter, and what
    [__init__] stores. *)
Record RateLimitMiddleware := Middleware {
  rate_limiter : RateLimiterConfig;
  identifier_func : Request → string;
  max_requests : option Z;
  window_seconds : option Z
}.

Definition init (config : RateLimiterConfig)
    (identifier_func : option (Request → string))
    (max_requests window_seconds : option Z) : RateLimitMiddleware :=
  {| rate_limiter := config;
     identifier_func := default _default_identifier identifier_func;
     max_requests := max_requests;
     window_seconds := window_seconds |}.

(** [dispatch].  The responses are those of the framework: [too_many] stands
    for the [JSONResponse] of the rejection branch, built from the metadata,
    and [with_headers] for the three header assignments on the response of
    [call_next]. *)
Definition dispatch {Response : Type}
    (too_many : metadata → Response)
    (with_headers : metadata → Response → Response)
    (self : RateLimitMiddleware) (request : Request)
    (call_next : Request → Redis.redis Response)
    (current_time : Z) : Redis.redis Response :=
  let identifier := identifier_func self request in
  do r <- RateLimiter.is_allowed (rate_limiter self) identifier
            (max_requests self) (window_seconds self) current_time;
  if r.1 then
    do response <- call_next request;
    Redis.ret (with_headers r.2 response)
  else Redis.ret (too_many r.2).

End MiddlewareFastapi.

(** [middleware_flask.py]. *)
Module MiddlewareFlask.

(** [FlaskRateLimiter._default_identifier]. *)
Definition _default_identifier (request : Request) : string :=
  let forwarded_for := x_forwarded_for request in
  if Py.truthy forwarded_for
  then Py.strip (Py.split_first ","%char (default "" forwarded_for))
  else
    let real_ip := x_real_ip request in
    if Py.truthy real_ip then default "" real_ip
    else if Py.truthy (client_host request) then default "" (client_host request)
         else "unknown".

End MiddlewareFlask.

(** [demo_no_redis.py]. *)
Module DemoMiddleware.

(** [SimpleRateLimitMiddleware._get_client_ip]. *)
Definition _get_client_ip (request : Request) : string :=
  let forwarded_for := x_forwarded_for request in
  if Py.truthy forwarded_for
  then Py.strip (Py.split_first ","%char (default "" forwarded_for))
  else match client_host request with
       | Some host => host
       | None => "unknown"
       end.

End DemoMiddleware.

(** A string of whitespace only. *)
Fixpoint blank (s : string) : bool :=
  match s with
  | EmptyString => true
  | String c s' => Py.isspace c && blank s'
  end.

(** The first character, if any, is not whitespace. *)
Definition starts_solid (s : string) : bool :=
  match s with
  | EmptyString => true
  | String c _ => negb (Py.isspace c)
  end.

(** The functions the adapters use when no [identifier_func] is given. *)
Definition default_identifiers : list (Request → string) :=
  [ MiddlewareFastapi._default_identifier;
    MiddlewareFastapi.dependency_default_identifier;
    MiddlewareFlask._default_identifier;
    DemoMiddleware._get_client_ip ].

(** The adapters of [app.py]: [rate_limit_dependency] there prefixes the
    identifier with the route, and calls the limiter of [app.py]
    ([epsilon] is that call's, see [App]). *)
Module AppAdapters.

Definition route_identifier (path base_identifier : string) : string :=
  "route:" +:+ path +:+ ":" +:+ base_identifier.

Definition rate_limit_dependency (epsilon : Z) (rate_limiter : RateLimiterConfig)
    (max_requests window_seconds : option Z)
    (identifier_func : option (Request → string))
    (request : Request) (current_time : Z) : Redis.redis (HTTPException + metadata) :=
  let identifier_getter :=
    default MiddlewareFastapi.dependency_default_identifier identifier_func in
  let base_identifier := identifier_getter request in
  let route_identifier := route_identifier (url_path request) base_identifier in
  do r <- App.is_allowed epsilon rate_limiter route_identifier max_requests
            window_seconds current_time;
  if negb r.1 then Redis.ret (inl (rate_limit_exceeded r.2))
  else Redis.ret (inr r.2).

End AppAdapters.

(** ** A route behind the global middleware *)

(** Successive requests of one client to an application wired as in
    [example_fastapi.py]: [dispatch] of the global middleware runs at the
    first reading of each pair and, inside [call_next], the dependency of
    the route at the second.  The reply recorded is whether the handler of
    the route ran: it does not when [dispatch] answers 429 itself, nor when
    the dependency raises. *)
Fixpoint serve_all (self : MiddlewareFastapi.RateLimitMiddleware)
    (dependency : Request → Z → Redis.redis (HTTPException + metadata))
    (request : Request) (times : list (Z * Z)) : Redis.redis (list bool) :=
  match times with
  | [] => Redis.ret []
  | (t, t') :: times =>
      do r <- MiddlewareFastapi.dispatch (λ _, false) (λ _ response, response)
                self request
                (λ request,
                   do d <- dependency request t';
                   Redis.ret (match d with inr _ => true | inl _ => false end))
                t;
      do rs <- serve_all self dependency request times;
      Redis.ret (r :: rs)
  end.

(** The clock readings of such requests, in the order they are taken. *)
Definition readings_of (times : list (Z * Z)) : list Z :=
  flat_map (λ p, [p.1; p.2]) times.

(** The handler runs expected of [n] such requests when the first of them
    finds [k] events on the key shared by the two limiters, of limits
    [global] and [route]. *)
Fixpoint expected_served (global route k : Z) (n : nat) : list bool :=
  match n with
  | O => []
  | S n =>
      if bool_decide (k < global)
      then bool_decide (k + 1 < route)
           :: expected_served global route
                (if bool_decide (k + 1 < route) then k + 2 else k + 1) n
      else false :: expected_served global route k n
  end.

(** ** Traces and the store they leave *)

(** The store after a trace of timed calls. *)
Fixpoint run (cfg : RateLimiterConfig) (trace : list (call * Z)) (s : store) : store :=
  match trace with
  | [] => s
  | (c, now) :: trace => run cfg trace (perform cfg c now s).2
  end.

(** The limit a call is checked against: that of [is_allowed], none for the
    other operations. *)
Definition limit_in_force (cfg : RateLimiterConfig) (c : call) : option Z :=
  match c with
  | IsAllowed _ m _ => Some (py_or m (default_requests cfg))
  | _ => None
  end.

(** Every [is_allowed] call of the trace made on [identifier] has a limit in
    force of at most [bound]. *)
Definition limits_within (cfg : RateLimiterConfig) (identifier : string)
    (bound : Z) (trace : list (call * Z)) : bool :=
  forallb (λ e, if decide (subject e.1 = identifier)
                then match limit_in_force cfg e.1 with
                     | Some l => bool_decide (l ≤ bound)
                     | None => true
                     end
                else true) trace.

Section pipeline_facts.
Import Redis SlidingWindow.

(** A key a command found live stays live for the commands that follow it
    at the same instant. *)
Lemma live_keep_nonempty now m ttl k :
  live now (Some k) = Some k → ttl = expire_at k →
  live now (keep_nonempty m ttl) = keep_nonempty m ttl.
Proof.
  intros Hk ->. unfold keep_nonempty. case_decide; [done|].
  simpl in *. unfold expired in *. simpl. by destruct (expire_at k); [case_bool_decide|].
Qed.

Lemma live_Some now o k : live now o = Some k → live now (Some k) = Some k.
Proof.
  destruct o as [k'|]; simpl; [|done].
  destruct (expired now k') eqn:E; [done|]. intros [= <-]. by rewrite E.
Qed.

Lemma pa_pa (o1 o2 : option zkey) key (s : store) :
  partial_alter (λ _, o2) key (partial_alter (λ _, o1) key s)
  = partial_alter (λ _, o2) key s.
Proof. by rewrite partial_alter_partial_alter_eq. Qed.

(** The batch as one transformation of its key: it counts the events of the
    window and leaves them, with the new event, under a fresh expiry. *)
Lemma pipeline_spec now key ws w s :
  ∃ removed added ok,
    pipeline key ws now w s =
    ((removed, Z.of_nat (size (window now ws (s !! key))), added, ok),
     partial_alter (λ _, after_pipeline now ws w (s !! key)) key s).
Proof.
  unfold pipeline, bind, ret, zremrangebyscore, zcard, zadd, expire, on_key.
  unfold after_pipeline, window.
  destruct (live now (s !! key)) as [k|] eqn:Hk.
  - pose proof (live_Some _ _ _ Hk) as Hk'.
    rewrite !lookup_partial_alter_eq.
    rewrite (live_keep_nonempty now _ _ k Hk' eq_refl).
    unfold keep_nonempty. case_decide as He.
    + simpl. rewrite !lookup_partial_alter_eq. simpl.
      rewrite !lookup_partial_alter_eq. simpl.
      rewrite !pa_pa, He, insert_empty.
      case_bool_decide; rewrite pa_pa; eexists _, _, _; done.
    + assert (∀ m, live now (Some (ZKey m (expire_at k))) = Some (ZKey m (expire_at k))) as Hl.
      { intros m. revert Hk'. simpl. unfold expired. simpl.
        by destruct (expire_at k); [case_bool_decide|]. }
      rewrite !lookup_partial_alter_eq, !Hl, !lookup_partial_alter_eq.
      simpl members. simpl expire_at. rewrite Hl. simpl.
      rewrite !pa_pa.
      case_bool_decide; rewrite pa_pa; eexists _, _, _; done.
  - rewrite !lookup_partial_alter_eq. simpl.
    rewrite !lookup_partial_alter_eq. simpl.
    rewrite !lookup_partial_alter_eq. simpl.
    rewrite !pa_pa, insert_empty.
    case_bool_decide; rewrite pa_pa; eexists _, _, _; done.
Qed.

(** The three operations in closed form: the reply read off the key, and the
    store changed at that key only. *)
Lemma is_allowed_spec eps cfg id m w now s :
  is_allowed eps cfg id m w now s =
  (outcome (py_or m (default_requests cfg)) (py_or w (default_window cfg)) now
     (Z.of_nat (size (window now (window_start eps cfg w now) (s !! key_of id)))),
   partial_alter (λ _, after_check eps cfg m w now (s !! key_of id)) (key_of id) s).
Proof.
  unfold is_allowed, after_check, outcome, window_start.
  set (m' := py_or m _). set (w' := py_or w _).
  unfold bind at 1.
  destruct (pipeline_spec now (key_of id) (now - seconds w' - eps) w' s)
    as (removed & added & ok & ->).
  simpl. case_bool_decide as Hlt; [done|].
  unfold bind, ret, zrem, on_key. rewrite lookup_partial_alter_eq.
  unfold after_pipeline. case_bool_decide; [simpl; by rewrite pa_pa|].
  assert (∀ m0, live now (Some (ZKey m0 (Some (now + seconds w'))))
                = Some (ZKey m0 (Some (now + seconds w')))) as ->.
  { intros m0. simpl. unfold expired. simpl. case_bool_decide; [|done].
    unfold seconds, ticks_per_second in *. lia. }
  simpl. by rewrite lookup_insert_eq, delete_insert_eq, pa_pa.
Qed.

Lemma get_usage_spec eps cfg id w now s :
  get_usage eps cfg id w now s =
  (Z.of_nat (size (window now (window_start eps cfg w now) (s !! key_of id))),
   partial_alter (λ _, after_usage eps cfg w now (s !! key_of id)) (key_of id) s).
Proof.
  unfold get_usage, after_usage, window_start, window.
  set (w' := py_or w _).
  unfold bind, zremrangebyscore, zcard, on_key.
  destruct (live now (s !! key_of id)) as [k|] eqn:Hk.
  - pose proof (live_Some _ _ _ Hk) as Hk'.
    rewrite lookup_partial_alter_eq.
    rewrite (live_keep_nonempty now _ _ k Hk' eq_refl).
    unfold keep_nonempty. case_decide as He; simpl; rewrite pa_pa; [by rewrite He|done].
  - rewrite lookup_partial_alter_eq. simpl. by rewrite pa_pa.
Qed.

Lemma reset_spec id now s :
  reset id now s =
  (bool_decide (is_Some (live now (s !! key_of id))), delete (key_of id) s).
Proof.
  unfold reset, bind, ret, del, on_key.
  by destruct (live now (s !! key_of id)).
Qed.
End pipeline_facts.

(** ** Events recorded within one window *)

Lemma str_inj a b : str a = str b → a = b.
Proof. unfold str. apply (inj pretty). Qed.

Lemma outside_all lo hi (z : gmap string Z) :
  (∀ mem sc, z !! mem = Some sc → ¬ (lo ≤ sc ≤ hi)) → Redis.outside lo hi z = z.
Proof. intros H. unfold Redis.outside. apply map_filter_id. intros i x Hx. by apply (H i). Qed.

Lemma outside_lookup lo hi (z : gmap string Z) mem sc :
  Redis.outside lo hi z !! mem = Some sc ↔ z !! mem = Some sc ∧ ¬ (lo ≤ sc ≤ hi).
Proof. unfold Redis.outside. by rewrite map_lookup_filter_Some. Qed.

Lemma seconds_pos w : 1 ≤ w → 0 < seconds w.
Proof. unfold seconds, ticks_per_second. lia. Qed.

Lemma window_live now ws z e :
  now ≤ e → window now ws (Some (ZKey z (Some e))) = Redis.outside 0 ws z.
Proof.
  intros. unfold window. simpl. unfold Redis.expired. simpl.
  by rewrite bool_decide_false by lia.
Qed.

Lemma window_keep_nonempty now ws z e :
  now ≤ e → window now ws (Redis.keep_nonempty z (Some e)) = Redis.outside 0 ws z.
Proof.
  intros. unfold Redis.keep_nonempty. case_decide as Hz.
  - subst. unfold window, Redis.outside. simpl. by rewrite map_filter_empty.
  - by apply window_live.
Qed.

Section one_window.
Context (cfg : RateLimiterConfig) (m w : option Z).
Let m' := py_or m (default_requests cfg).
Let w' := py_or w (default_window cfg).
Let W := seconds w'.
Hypothesis w_pos : 1 ≤ w'.

(** While the key tracks [z], every call counts [z]; a later reading is not
    among its members; and a call at a later reading keeps the key tracking,
    with its own event added when it is allowed. *)
Lemma tracks_count lo last z o t :
  tracks W lo last z o → last ≤ t → t < lo + W →
  window t (window_start 0 cfg w t) o = z.
Proof.
  intros [_ H] ? ?. unfold window_start. fold w'. fold W.
  rewrite Z.sub_0_r. by apply H.
Qed.

Lemma tracks_fresh lo last z o now :
  tracks W lo last z o → last < now → z !! str now = None.
Proof.
  intros [H _] ?. destruct (z !! str now) as [sc|] eqn:E; [|done].
  apply H in E as [E ?]. apply str_inj in E. lia.
Qed.

Lemma tracks_check lo last z o now :
  tracks W lo last z o → last < now → lo ≤ now → now < lo + W →
  tracks W lo now
    (if bool_decide (Z.of_nat (size z) < m') then <[ str now := now ]> z else z)
    (after_check 0 cfg m w now o).
Proof.
  intros Ht Hlast Hlo Hhi.
  pose proof (tracks_count _ _ _ _ now Ht ltac:(lia) Hhi) as Hz.
  pose proof (tracks_fresh _ _ _ _ now Ht Hlast) as Hfresh.
  pose proof (seconds_pos _ w_pos) as HW. fold W in HW.
  destruct Ht as [Hsc _].
  unfold after_check, after_pipeline. fold m' w' W. rewrite Hz.
  rewrite (bool_decide_false (w' ≤ 0)) by lia.
  case_bool_decide as Hlt; split.
  - intros mem sc. rewrite lookup_insert. case_decide as E.
    + intros [= <-]. split; [by rewrite <- E|lia].
    + intros Hm. apply Hsc in Hm. split; [tauto|lia].
  - intros t ? ?. rewrite window_live by (fold W; lia).
    apply outside_all. intros mem sc. rewrite lookup_insert. case_decide.
    + intros [= <-]. lia.
    + intros Hm. apply Hsc in Hm. lia.
  - intros mem sc Hm. apply Hsc in Hm. split; [tauto|lia].
  - intros t ? ?. rewrite window_keep_nonempty by (fold W; lia).
    rewrite delete_id by done.
    apply outside_all. intros mem sc Hm. apply Hsc in Hm. lia.
Qed.

Lemma tracks_size lo last z o now :
  tracks W lo last z o → last < now →
  Z.of_nat (size (if bool_decide (Z.of_nat (size z) < m')
                  then <[ str now := now ]> z else z))
  = if bool_decide (Z.of_nat (size z) < m')
    then Z.of_nat (size z) + 1 else Z.of_nat (size z).
Proof.
  intros Ht Hlast. case_bool_decide; [|done].
  rewrite map_size_insert_None by eauto using tracks_fresh. lia.
Qed.

Lemma tracks_later lo last last' z o :
  tracks W lo last z o → last ≤ last' → tracks W lo last' z o.
Proof.
  intros [H1 H2] ?. split.
  - intros mem sc Hm. apply H1 in Hm. split; [tauto|lia].
  - intros t ? ?. apply H2; lia.
Qed.

Lemma tracks_absent lo last : tracks W lo last ∅ None.
Proof. split; [intros ??; by rewrite lookup_empty|done]. Qed.

Lemma increasing_cons a b l :
  increasing (a :: b :: l) = true → a < b ∧ increasing (b :: l) = true.
Proof.
  cbn [increasing]. intros H. apply andb_prop in H as [H1 H2].
  by apply bool_decide_eq_true in H1.
Qed.

(** Successive calls inside the window reply as [expected] and keep the key
    tracking. *)
Lemma check_all_tracks id times : ∀ lo last z s,
  tracks W lo last z (s !! key_of id) →
  increasing (last :: times) = true →
  Forall (λ t, lo ≤ t < lo + W) times →
  ∃ z' last',
    (check_all cfg id m w times s).1 = expected m' w' (Z.of_nat (size z)) times ∧
    tracks W lo last' z' ((check_all cfg id m w times s).2 !! key_of id) ∧
    last' ∈ last :: times ∧
    Z.of_nat (size z') = count_after m' (Z.of_nat (size z)) (length times).
Proof.
  induction times as [|t times IH]; intros lo last z s Ht Hinc Hwin.
  - exists z, last. split_and!; [done..|by apply elem_of_cons; left|done].
  - apply increasing_cons in Hinc as [Hlt Hinc].
    apply Forall_cons in Hwin as [[Hlo Hhi] Hwin].
    cbn [check_all]. unfold Redis.bind, Redis.ret.
    unfold RateLimiter.is_allowed. rewrite is_allowed_spec.
    rewrite (tracks_count lo last z _ t Ht) by lia.
    pose proof (tracks_check lo last z _ t Ht Hlt Hlo Hhi) as Ht'.
    pose proof (tracks_size lo last z _ t Ht Hlt) as Hsz.
    set (z1 := if bool_decide (Z.of_nat (size z) < m') then _ else z) in *.
    set (s1 := partial_alter _ _ s).
    assert (s1 !! key_of id = after_check 0 cfg m w t (s !! key_of id)) as Hs1
      by (unfold s1; by rewrite lookup_partial_alter_eq).
    rewrite <- Hs1 in Ht'.
    destruct (IH lo t z1 s1 Ht' Hinc Hwin) as (z' & last' & Hrs & Hfin & Hin & Hcount).
    exists z', last'.
    destruct (check_all cfg id m w times s1) as [rs s2]. simpl in *.
    fold m' w'. rewrite Hrs, Hsz. split_and!; [done|done|by apply elem_of_cons; right|by rewrite Hcount, Hsz].
Qed.

End one_window.

(** ** Arithmetic of the expected replies *)

Lemma expected_length m w times : ∀ k, length (expected m w k times) = length times.
Proof. induction times as [|t times IH]; intros k; simpl; [done|]. by rewrite IH. Qed.

Lemma expected_lookup m w times : ∀ k i r,
  expected m w k times !! i = Some r →
  ∃ t, times !! i = Some t ∧
       r = outcome m w t (Z.min (k + Z.of_nat i) (Z.max k m)).
Proof.
  induction times as [|t times IH]; intros k i r; simpl; [done|].
  destruct i as [|i]; simpl.
  - intros [= <-]. exists t. split; [done|]. f_equal. lia.
  - intros Hr. apply IH in Hr as (t' & Ht' & ->). exists t'. split; [done|].
    f_equal. case_bool_decide; lia.
Qed.

Lemma count_after_allowed m w times : ∀ k,
  count_after m k (length times) = k + Z.of_nat (allowed_calls (expected m w k times)).
Proof.
  unfold allowed_calls.
  induction times as [|t times IH]; intros k; simpl; [lia|].
  rewrite IH, filter_cons. simpl. case_bool_decide as Hk.
  - rewrite decide_True by done. simpl. lia.
  - rewrite decide_False by done. done.
Qed.

Lemma increasing_above a l : increasing (a :: l) = true → Forall (λ t, a < t) l.
Proof.
  revert a. induction l as [|b l IH]; intros a H; [constructor|].
  apply increasing_cons in H as [Hab H]. constructor; [done|].
  eapply Forall_impl; [by apply IH|]. simpl. lia.
Qed.

Lemma within_window_forall w t0 l :
  within_window w (t0 :: l) = true → Forall (λ t, t < t0 + seconds w) (t0 :: l).
Proof.
  unfold within_window. intros H. apply Forall_forall. intros t Ht.
  apply list_elem_of_In in Ht.
  pose proof (proj1 (forallb_forall _ _) H t Ht) as Hb.
  apply bool_decide_eq_true in Hb. lia.
Qed.

(** From an absent key, successive calls at increasing readings inside one
    window return the expected replies, and leave as many events as calls
    were let through. *)
Lemma check_all_from_absent cfg id m w times s :
  1 ≤ py_or w (default_window cfg) →
  s !! key_of id = None →
  increasing times = true →
  within_window (py_or w (default_window cfg)) times = true →
  (check_all cfg id m w times s).1
    = expected (py_or m (default_requests cfg)) (py_or w (default_window cfg)) 0 times ∧
  ∀ t, Forall (λ t', t' ≤ t) times →
       within_window (py_or w (default_window cfg)) (times ++ [t]) = true →
       (RateLimiter.get_usage cfg id w t (check_all cfg id m w times s).2).1
       = Z.of_nat (allowed_calls (check_all cfg id m w times s).1).
Proof.
  intros Hw Habs Hinc Hwin.
  set (m' := py_or m (default_requests cfg)) in *.
  set (w' := py_or w (default_window cfg)) in *.
  destruct times as [|t0 times].
  { simpl. split; [done|]. intros t _ _.
    unfold RateLimiter.get_usage. rewrite get_usage_spec, Habs. done. }
  pose proof (within_window_forall _ _ _ Hwin) as Hhi.
  pose proof (increasing_above _ _ Hinc) as Hlo.
  assert (Forall (λ t, t0 ≤ t < t0 + seconds w') (t0 :: times)) as Hall.
  { apply Forall_cons in Hhi as [? Hhi]. constructor; [lia|].
    apply Forall_forall. intros t Ht.
    rewrite Forall_forall in Hhi, Hlo. specialize (Hhi t Ht). specialize (Hlo t Ht). lia. }
  assert (increasing ((t0 - 1) :: t0 :: times) = true) as Hinc'.
  { cbn [increasing]. rewrite bool_decide_true by lia. exact Hinc. }
  pose proof (tracks_absent cfg w t0 (t0 - 1)) as Ht. rewrite <- Habs in Ht.
  destruct (check_all_tracks cfg m w Hw id (t0 :: times) t0 (t0 - 1) ∅ s Ht Hinc' Hall)
    as (z' & last' & Hrs & Hfin & Hin & Hcount).
  rewrite map_size_empty in Hrs, Hcount. change (Z.of_nat 0) with 0 in *.
  fold m' w' in Hrs, Hcount. split; [done|].
  intros t Hle Hwin'.
  unfold RateLimiter.get_usage. rewrite get_usage_spec.
  assert (last' ≤ t) as Hlast.
  { apply elem_of_cons in Hin as [->|Hin].
    - apply Forall_cons in Hle as [? _]. lia.
    - rewrite Forall_forall in Hle. by apply Hle. }
  assert (t < t0 + seconds w') as Hthi.
  { change ((t0 :: times) ++ [t]) with (t0 :: (times ++ [t])) in Hwin'.
    apply within_window_forall in Hwin'. rewrite Forall_forall in Hwin'.
    apply Hwin'. apply elem_of_cons. right. apply elem_of_app. right.
    by apply list_elem_of_singleton. }
  cbn [fst].
  rewrite (tracks_count cfg w t0 last' z' _ t Hfin Hlast Hthi).
  rewrite Hcount, Hrs. rewrite (count_after_allowed m' w'). lia.
Qed.

(** ** Replies in terms of the count a call observes *)

Lemma usage_count eps cfg id w now s :
  (SlidingWindow.get_usage eps cfg id w now s).1
  = Z.of_nat (size (window now (window_start eps cfg w now) (s !! key_of id))).
Proof. by rewrite get_usage_spec. Qed.

Lemma is_allowed_reply eps cfg id m w now s :
  (SlidingWindow.is_allowed eps cfg id m w now s).1
  = outcome (py_or m (default_requests cfg)) (py_or w (default_window cfg)) now
      (SlidingWindow.get_usage eps cfg id w now s).1.
Proof. by rewrite is_allowed_spec, usage_count. Qed.

Lemma is_allowed_key eps cfg id m w now s :
  (SlidingWindow.is_allowed eps cfg id m w now s).2 !! key_of id
  = after_check eps cfg m w now (s !! key_of id).
Proof. rewrite is_allowed_spec. simpl. by rewrite lookup_partial_alter_eq. Qed.

Lemma is_allowed_other eps cfg id m w now s key :
  key ≠ key_of id →
  (SlidingWindow.is_allowed eps cfg id m w now s).2 !! key = s !! key.
Proof. intros. rewrite is_allowed_spec. simpl. by rewrite lookup_partial_alter_ne. Qed.

Lemma usage_nonneg eps cfg id w now s :
  0 ≤ (SlidingWindow.get_usage eps cfg id w now s).1.
Proof. rewrite usage_count. lia. Qed.

Lemma check_all_length cfg id m w times :
  ∀ s, length (check_all cfg id m w times s).1 = length times.
Proof.
  induction times as [|t times IH]; intros s; [done|].
  cbn [check_all]. unfold Redis.bind, Redis.ret.
  destruct (RateLimiter.is_allowed cfg id m w t s) as [r s1].
  specialize (IH s1). destruct (check_all cfg id m w times s1) as [rs s2].
  simpl in *. by rewrite IH.
Qed.

Lemma window_fresh now now' ws o :
  fresh now o = true → window now' ws o !! str now = None.
Proof.
  unfold window, fresh. destruct o as [k|]; simpl; [|done].
  intros H. apply bool_decide_eq_true in H.
  destruct (Redis.expired now' k); [done|].
  destruct (Redis.outside 0 ws (members k) !! str now) as [sc|] eqn:E; [|done].
  apply outside_lookup in E as [E _]. congruence.
Qed.

Lemma outside_window now ws o :
  Redis.outside 0 ws (window now ws o) = window now ws o.
Proof.
  apply outside_all. intros mem sc. unfold window.
  destruct (Redis.live now o); [|done].
  rewrite outside_lookup. tauto.
Qed.

Lemma not_after_forall t times : not_after t times = true → Forall (λ t', t' ≤ t) times.
Proof.
  unfold not_after. intros H. apply Forall_forall. intros t' Ht'.
  apply list_elem_of_In in Ht'.
  pose proof (proj1 (forallb_forall _ _) H t' Ht') as Hb.
  by apply bool_decide_eq_true in Hb.
Qed.

(** * The claims *)

(** C1 fails on the code when sequential calls read the same clock value.
    The event of a call is stored under the string form of its reading, so
    the insert of a second call at that reading replaces the entry of the
    first instead of adding one, and the count stays at 1.  Under a limit of
    2, three calls from an empty record that all read 1700000000 s are let
    through, where the claim has the third rejected; any number of further
    calls at that reading would be. *)
Lemma equal_readings_pass_the_limit :
  let cfg := Config 100 60 in
  let now := 1700000000000000 in
  let rs := check_all cfg "u" (Some 2) (Some 60) [now; now; now] ∅ in
  map fst rs.1 = [true; true; true] ∧
  (RateLimiter.get_usage cfg "u" (Some 60) now rs.2).1 = 1 ∧
  (RateLimiter.is_allowed cfg "u" (Some 2) (Some 60) now rs.2).1.1 = true.
Proof. by vm_compute. Qed.

(** C2 fails on the code for the same reason: under a limit of 3, three
    calls from an empty record that all read 1700000000 s are allowed with
    [remaining] 2, 1 and again 1, where the claim has [m - k = 0] on the
    third allowed call. *)
Lemma equal_readings_repeat_remaining :
  let cfg := Config 100 60 in
  let now := 1700000000000000 in
  map (λ r, (r.1, remaining r.2))
      (check_all cfg "u" (Some 3) (Some 60) [now; now; now] ∅).1
  = [(true, 2); (true, 1); (true, 1)].
Proof. by vm_compute. Qed.

(** X16.  The limit is exact whenever the clock readings of the calls
    strictly increase.  From an empty window record, sequential calls under
    a policy [(m, w)] with [m ≥ 1] whose readings increase and stay within
    one window of the first: the call at position [i] (counted from 0) is
    allowed exactly when [i < m], so calls 1..m are allowed and call m+1 is
    rejected.  Every call, in every state, decides [count < max_requests] on
    the count it observed before adding its own event, the count [get_usage]
    reports at that instant. *)
Theorem first_m_calls_allowed cfg id m w times s :
  1 ≤ m → 1 ≤ w →
  s !! key_of id = None →
  increasing times = true →
  within_window w times = true →
  length (check_all cfg id (Some m) (Some w) times s).1 = length times ∧
  (∀ i r, (check_all cfg id (Some m) (Some w) times s).1 !! i = Some r →
          r.1 = bool_decide (Z.of_nat i < m)) ∧
  (∀ m0 w0 now s0,
     (RateLimiter.is_allowed cfg id m0 w0 now s0).1.1
     = bool_decide ((RateLimiter.get_usage cfg id w0 now s0).1
                    < py_or m0 (default_requests cfg))).
Proof.
  intros Hm Hw Habs Hinc Hwin. split; [apply check_all_length|]. split.
  - assert (py_or (Some w) (default_window cfg) = w) as Ew
      by (simpl; case_decide; [lia|done]).
    assert (py_or (Some m) (default_requests cfg) = m) as Em
      by (simpl; case_decide; [lia|done]).
    destruct (check_all_from_absent cfg id (Some m) (Some w) times s) as [Hrs _];
      rewrite ?Ew; try done; try lia.
    rewrite Hrs, Em, Ew. intros i r Hr.
    apply expected_lookup in Hr as (t & _ & ->). simpl.
    apply bool_decide_ext. lia.
  - intros m0 w0 now s0. unfold RateLimiter.is_allowed, RateLimiter.get_usage.
    by rewrite is_allowed_reply.
Qed.

Lemma first_m_calls_allowed_witness :
  let cfg := Config 100 60 in
  let times := [0; 1000000; 2000000; 3000000] in
  length (check_all cfg "u" (Some 3) (Some 5) times ∅).1 = length times ∧
  (∀ i r, (check_all cfg "u" (Some 3) (Some 5) times ∅).1 !! i = Some r →
          r.1 = bool_decide (Z.of_nat i < 3)) ∧
  (∀ m0 w0 now s0,
     (RateLimiter.is_allowed cfg "u" m0 w0 now s0).1.1
     = bool_decide ((RateLimiter.get_usage cfg "u" w0 now s0).1
                    < py_or m0 (default_requests cfg))).
Proof.
  apply (first_m_calls_allowed (Config 100 60) "u" 3 5
           [0; 1000000; 2000000; 3000000] ∅);
    [lia | lia | reflexivity | reflexivity | reflexivity].
Defined.

(** X17.  For calls at strictly increasing readings within one window,
    from an empty record, the k-th allowed call (k = 1..m, the call at
    position k-1) returns [remaining = m - k].  For every call in every
    state [remaining] is never negative, it is [0] on every blocked call,
    and it is [max(0, max_requests - count - 1)] when the call is
    allowed. *)
Theorem remaining_counts_down cfg id m w times s i r :
  1 ≤ m → 1 ≤ w →
  s !! key_of id = None →
  increasing times = true →
  within_window w times = true →
  (check_all cfg id (Some m) (Some w) times s).1 !! i = Some r →
  Z.of_nat i < m →
  (r.1 = true ∧ remaining r.2 = m - (Z.of_nat i + 1)) ∧
  (∀ m0 w0 now s0,
     let r0 := (RateLimiter.is_allowed cfg id m0 w0 now s0).1 in
     let count := (RateLimiter.get_usage cfg id w0 now s0).1 in
     0 ≤ remaining r0.2 ∧
     (r0.1 = false → remaining r0.2 = 0) ∧
     remaining r0.2
     = if r0.1 then Z.max 0 (py_or m0 (default_requests cfg) - count - 1) else 0).
Proof.
  intros Hm Hw Habs Hinc Hwin Hr Hi. split.
  - assert (py_or (Some w) (default_window cfg) = w) as Ew
      by (simpl; case_decide; [lia|done]).
    assert (py_or (Some m) (default_requests cfg) = m) as Em
      by (simpl; case_decide; [lia|done]).
    destruct (check_all_from_absent cfg id (Some m) (Some w) times s) as [Hrs _];
      rewrite ?Ew; try done; try lia.
    rewrite Hrs, Em, Ew in Hr.
    apply expected_lookup in Hr as (t & _ & ->). simpl.
    rewrite bool_decide_true by lia. split; [done|lia].
  - intros m0 w0 now s0. simpl.
    unfold RateLimiter.is_allowed, RateLimiter.get_usage.
    rewrite is_allowed_reply. simpl.
    pose proof (usage_nonneg 0 cfg id w0 now s0).
    case_bool_decide; split_and!; try done; lia.
Qed.

Lemma remaining_counts_down_witness :
  (true, {| limit := 3; remaining := 1; reset_time := 6; retry_after := 0 |}).1 = true ∧
  remaining (true, {| limit := 3; remaining := 1; reset_time := 6; retry_after := 0 |}).2
  = 3 - (Z.of_nat 1 + 1).
Proof.
  apply (remaining_counts_down (Config 100 60) "u" 3 5
           [0; 1000000; 2000000; 3000000] ∅ 1%nat
           (true, {| limit := 3; remaining := 1; reset_time := 6; retry_after := 0 |}));
    [lia | lia | reflexivity | reflexivity | reflexivity | reflexivity | simpl; lia].
Defined.

(** C7.  Whatever the store holds, [reset] followed by [is_allowed] under a
    policy with [m ≥ 1] returns allowed with [remaining = m - 1]: the reset
    deletes the key, so the call counts no earlier event. *)
Theorem reset_then_check_is_first_call cfg id m w t_reset now s :
  1 ≤ m →
  let s1 := (RateLimiter.reset id t_reset s).2 in
  let r := (RateLimiter.is_allowed cfg id (Some m) w now s1).1 in
  s1 !! key_of id = None ∧ r.1 = true ∧ remaining r.2 = m - 1.
Proof.
  intros Hm. simpl.
  unfold RateLimiter.reset, RateLimiter.is_allowed.
  rewrite reset_spec. simpl. rewrite is_allowed_spec, lookup_delete_eq.
  split; [done|]. unfold window. simpl. case_decide; [lia|].
  rewrite (map_size_empty (M:=gmap string)). change (Z.of_nat 0) with 0.
  rewrite bool_decide_true by lia. split; [done|lia].
Qed.

Lemma reset_then_check_is_first_call_witness :
  let s := (check_all (Config 100 60) "u" (Some 2) (Some 5) [0; 1; 2] ∅).2 in
  let s1 := (RateLimiter.reset "u" 3 s).2 in
  let r := (RateLimiter.is_allowed (Config 100 60) "u" (Some 2) (Some 5) 3 s1).1 in
  s1 !! key_of "u" = None ∧ r.1 = true ∧ remaining r.2 = 2 - 1.
Proof.
  apply (reset_then_check_is_first_call (Config 100 60) "u" 2 (Some 5) 3 3). lia.
Defined.

(** C4 fails on the code for a call whose clock reading is already stored
    under the key: the insert of step 5 replaces the stored entry instead of
    adding one, and the retraction of step 7, meant for the request just
    added, then removes the entry of the earlier, allowed request.  With one
    event stored at reading 7 and a limit of 1, a call at reading 7 is
    rejected, and [get_usage] at that instant drops from 1 to 0; a third call
    at the same reading is then let through. *)
Lemma blocked_call_at_stored_reading :
  let cfg := Config 100 60 in
  let s := (check_all cfg "u" (Some 1) (Some 5) [7] ∅).2 in
  (RateLimiter.get_usage cfg "u" (Some 5) 7 s).1 = 1 ∧
  (RateLimiter.is_allowed cfg "u" (Some 1) (Some 5) 7 s).1.1 = false ∧
  (RateLimiter.get_usage cfg "u" (Some 5) 7
     (RateLimiter.is_allowed cfg "u" (Some 1) (Some 5) 7 s).2).1 = 0 ∧
  map fst (check_all cfg "u" (Some 1) (Some 5) [7; 7; 7] ∅).1 = [true; false; true].
Proof. by vm_compute. Qed.

(** X18.  A rejected call whose clock reading is not already stored under
    the key does not consume quota.  For a policy with a positive window and
    such a call: if [is_allowed] returns blocked, [get_usage] at the same
    instant returns after the call what it returned before it.  And from an
    empty record, after any sequence of allowed and blocked calls at
    increasing readings within one window, [get_usage] returns the number of
    calls that were allowed. *)
Theorem blocked_call_keeps_usage cfg id m w now s times s0 t :
  1 ≤ py_or w (default_window cfg) →
  fresh now (s !! key_of id) = true →
  (RateLimiter.is_allowed cfg id m w now s).1.1 = false →
  s0 !! key_of id = None →
  increasing times = true →
  not_after t times = true →
  within_window (py_or w (default_window cfg)) (times ++ [t]) = true →
  (RateLimiter.get_usage cfg id w now (RateLimiter.is_allowed cfg id m w now s).2).1
  = (RateLimiter.get_usage cfg id w now s).1 ∧
  (RateLimiter.get_usage cfg id w t (check_all cfg id m w times s0).2).1
  = Z.of_nat (allowed_calls (check_all cfg id m w times s0).1).
Proof.
  intros Hw Hfresh Hblocked Habs Hinc Hle Hwin. split.
  - unfold RateLimiter.get_usage, RateLimiter.is_allowed in *.
    rewrite !usage_count, is_allowed_key.
    rewrite is_allowed_spec in Hblocked. simpl in Hblocked.
    apply bool_decide_eq_false in Hblocked.
    unfold after_check. rewrite bool_decide_false by done.
    rewrite bool_decide_false by lia.
    pose proof (seconds_pos _ Hw).
    rewrite window_keep_nonempty by lia.
    rewrite delete_id by (by apply window_fresh).
    by rewrite outside_window.
  - apply check_all_from_absent; try done.
    + destruct times as [|t0 times]; [done|].
      revert Hwin. unfold within_window. simpl.
      intros H. apply andb_prop in H as [_ H].
      rewrite forallb_app in H. apply andb_prop in H as [H _].
      simpl. rewrite bool_decide_true; [done|]. pose proof (seconds_pos _ Hw). lia.
    + by apply not_after_forall.
Qed.

Lemma blocked_call_keeps_usage_witness :
  let cfg := Config 100 60 in
  let s := (check_all cfg "u" (Some 1) (Some 5) [0] ∅).2 in
  (RateLimiter.get_usage cfg "u" (Some 5) 1
     (RateLimiter.is_allowed cfg "u" (Some 1) (Some 5) 1 s).2).1
  = (RateLimiter.get_usage cfg "u" (Some 5) 1 s).1 ∧
  (RateLimiter.get_usage cfg "u" (Some 5) 3
     (check_all cfg "u" (Some 1) (Some 5) [0; 1; 2] ∅).2).1
  = Z.of_nat (allowed_calls (check_all cfg "u" (Some 1) (Some 5) [0; 1; 2] ∅).1).
Proof.
  apply (blocked_call_keeps_usage (Config 100 60) "u" (Some 1) (Some 5) 1
           (check_all (Config 100 60) "u" (Some 1) (Some 5) [0] ∅).2
           [0; 1; 2] ∅ 3);
    [simpl; lia | reflexivity | reflexivity | reflexivity | reflexivity
    | reflexivity | reflexivity].
Defined.

(** C10.  When the reading of a call is already stored under the key (the
    member is its string form, the score the reading itself), the insert
    replaces that entry: after an allowed call the key holds exactly the
    members the call counted, and [get_usage] at that instant returns the
    same count as before the call. *)
Theorem same_timestamp_recorded_once cfg id m w now s k :
  1 ≤ py_or w (default_window cfg) →
  s !! key_of id = Some k →
  Redis.expired now k = false →
  members k !! str now = Some now →
  (RateLimiter.is_allowed cfg id m w now s).1.1 = true →
  let s' := (RateLimiter.is_allowed cfg id m w now s).2 in
  (RateLimiter.get_usage cfg id w now s').1 = (RateLimiter.get_usage cfg id w now s).1 ∧
  ∃ k', s' !! key_of id = Some k' ∧
        members k' = Redis.outside 0 (now - seconds (py_or w (default_window cfg))) (members k).
Proof.
  intros Hw Hk Hlive Hmem Hallowed. simpl.
  unfold RateLimiter.get_usage, RateLimiter.is_allowed in *.
  rewrite !usage_count, is_allowed_key.
  rewrite is_allowed_spec in Hallowed. simpl in Hallowed.
  apply bool_decide_eq_true in Hallowed.
  pose proof (seconds_pos _ Hw) as HW.
  unfold after_check, after_pipeline. rewrite bool_decide_true by done.
  rewrite bool_decide_false by lia.
  assert (window now (window_start 0 cfg w now) (s !! key_of id)
          = Redis.outside 0 (now - seconds (py_or w (default_window cfg))) (members k)) as EW.
  { rewrite Hk. unfold window, window_start. simpl. rewrite Hlive. by rewrite Z.sub_0_r. }
  rewrite insert_id.
  2:{ rewrite EW. apply outside_lookup. split; [done|lia]. }
  split.
  - rewrite window_live by lia. by rewrite outside_window.
  - eexists. split; [done|]. simpl. by rewrite EW.
Qed.

Lemma same_timestamp_recorded_once_witness :
  let cfg := Config 100 60 in
  let s := (check_all cfg "u" (Some 2) (Some 5) [7] ∅).2 in
  let s' := (RateLimiter.is_allowed cfg "u" (Some 2) (Some 5) 7 s).2 in
  (RateLimiter.get_usage cfg "u" (Some 5) 7 s').1
  = (RateLimiter.get_usage cfg "u" (Some 5) 7 s).1 ∧
  ∃ k', s' !! key_of "u" = Some k' ∧
        members k' = Redis.outside 0 (7 - seconds (py_or (Some 5) (default_window cfg)))
                       (members (ZKey {[ str 7 := 7 ]} (Some 5000007))).
Proof.
  apply (same_timestamp_recorded_once (Config 100 60) "u" (Some 2) (Some 5) 7
           (check_all (Config 100 60) "u" (Some 2) (Some 5) [7] ∅).2
           (ZKey {[ str 7 := 7 ]} (Some 5000007)));
    [simpl; lia | reflexivity | reflexivity | reflexivity | reflexivity].
Defined.



(** C5, as stated, fails: a rejected call moves the expiry of the key.  The
    key expired at 105 s before the call and expires at 110 s after it. *)
Lemma blocked_call_moves_expiry :
  let cfg := Config 100 60 in
  let s := (RateLimiter.is_allowed cfg "u" (Some 1) (Some 10) 95000000 ∅).2 in
  let now := 100000000 in
  (RateLimiter.is_allowed cfg "u" (Some 1) (Some 10) now s).1.1 = false ∧
  expiry s "u" = Some 105000000 ∧
  expiry (RateLimiter.is_allowed cfg "u" (Some 1) (Some 10) now s).2 "u" = Some 110000000 ∧
  expiry (RateLimiter.is_allowed cfg "u" (Some 1) (Some 10) now s).2 "u" ≠ expiry s "u".
Proof. by vm_compute. Qed.

(** C5, amended.  A rejected call under a policy with [m ≥ 1] and a positive
    window, whose reading is not already stored under the key, leaves the
    stored events as the purge left them, and sets the expiry of the key to
    [window_seconds] from the call, whatever it was before: the [expire] of
    the pipeline is not undone. *)
Theorem blocked_call_resets_expiry cfg id m w now s :
  1 ≤ py_or m (default_requests cfg) →
  1 ≤ py_or w (default_window cfg) →
  fresh now (s !! key_of id) = true →
  (RateLimiter.is_allowed cfg id m w now s).1.1 = false →
  let s' := (RateLimiter.is_allowed cfg id m w now s).2 in
  expiry s' id = Some (now + seconds (py_or w (default_window cfg))) ∧
  stored s' id = stored (RateLimiter.get_usage cfg id w now s).2 id.
Proof.
  intros Hm Hw Hfresh Hblocked. simpl.
  unfold RateLimiter.is_allowed, RateLimiter.get_usage in *.
  rewrite is_allowed_spec in Hblocked. simpl in Hblocked.
  apply bool_decide_eq_false in Hblocked.
  unfold expiry, stored. rewrite is_allowed_key, get_usage_spec. simpl.
  rewrite lookup_partial_alter_eq.
  unfold after_check. rewrite bool_decide_false by done.
  rewrite bool_decide_false by lia.
  rewrite delete_id by (by apply window_fresh).
  set (z := window now (window_start 0 cfg w now) (s !! key_of id)) in *.
  assert (z ≠ ∅) as Hz.
  { intros E. rewrite E, map_size_empty in Hblocked. lia. }
  unfold Redis.keep_nonempty. rewrite decide_False by done. simpl.
  split; [done|].
  unfold after_usage. unfold z, window in *.
  destruct (Redis.live now (s !! key_of id)) as [k|]; [|done].
  unfold Redis.keep_nonempty. by rewrite decide_False by done.
Qed.

Lemma blocked_call_resets_expiry_witness :
  let cfg := Config 100 60 in
  let s := (RateLimiter.is_allowed cfg "u" (Some 1) (Some 10) 95000000 ∅).2 in
  let s' := (RateLimiter.is_allowed cfg "u" (Some 1) (Some 10) 100000000 s).2 in
  expiry s' "u" = Some (100000000 + seconds (py_or (Some 10) (default_window cfg))) ∧
  stored s' "u" = stored (RateLimiter.get_usage cfg "u" (Some 10) 100000000 s).2 "u".
Proof.
  apply (blocked_call_resets_expiry (Config 100 60) "u" (Some 1) (Some 10) 100000000
           (RateLimiter.is_allowed (Config 100 60) "u" (Some 1) (Some 10) 95000000 ∅).2);
    [simpl; lia | simpl; lia | reflexivity | reflexivity].
Defined.

(** C6, as stated, fails: a call with [max_requests = -1] raises nothing.  It
    returns a verdict, and it has written to the store: the expiry of the
    key moved from 5 s to 6 s. *)
Lemma negative_limit_is_served :
  let cfg := Config 100 60 in
  let s := (RateLimiter.is_allowed cfg "u" (Some 1) (Some 5) 0 ∅).2 in
  let call := RateLimiter.is_allowed cfg "u" (Some (-1)) (Some 5) 1000000 s in
  -1 ≤ 0 ∧
  call.1 = (false, {| limit := -1; remaining := 0; reset_time := 6; retry_after := 5 |}) ∧
  expiry s "u" = Some 5000000 ∧
  expiry call.2 "u" = Some 6000000 ∧
  call.2 ≠ s.
Proof.
  split_and!; [done|by vm_compute..|].
  intros E. apply (f_equal (λ s, expiry s "u")) in E. vm_compute in E. congruence.
Qed.

(** C6, amended.  [is_allowed] validates nothing.  A [max_requests] or
    [window_seconds] of [0] is replaced by the configured default, as [None]
    is.  When the limit in force is not positive the call is served like any
    other and rejected, with [remaining = 0] and [retry_after] the window in
    force.  When the window in force is not positive the call leaves no key
    for the identifier. *)
Theorem policy_is_not_validated cfg id m w now s :
  RateLimiter.is_allowed cfg id (Some 0) w now s
  = RateLimiter.is_allowed cfg id None w now s ∧
  RateLimiter.is_allowed cfg id m (Some 0) now s
  = RateLimiter.is_allowed cfg id m None now s ∧
  (py_or m (default_requests cfg) ≤ 0 →
   let r := (RateLimiter.is_allowed cfg id m w now s).1 in
   r.1 = false ∧ remaining r.2 = 0 ∧
   retry_after r.2 = py_or w (default_window cfg)) ∧
  (py_or w (default_window cfg) ≤ 0 →
   (RateLimiter.is_allowed cfg id m w now s).2 !! key_of id = None).
Proof.
  split_and!; try done.
  - intros Hm. simpl. unfold RateLimiter.is_allowed. rewrite is_allowed_reply. simpl.
    pose proof (usage_nonneg 0 cfg id w now s).
    rewrite bool_decide_false by lia. rewrite bool_decide_true by lia.
    split_and!; [done|lia|done].
  - intros Hw. unfold RateLimiter.is_allowed. rewrite is_allowed_key.
    unfold after_check, after_pipeline.
    rewrite (bool_decide_true (py_or w (default_window cfg) ≤ 0)) by done.
    by case_bool_decide.
Qed.

Lemma policy_is_not_validated_witness :
  let cfg := Config 100 60 in
  let r := (RateLimiter.is_allowed cfg "u" (Some (-1)) (Some 5) 1000000 ∅).1 in
  (r.1 = false ∧ remaining r.2 = 0 ∧ retry_after r.2 = 5) ∧
  (RateLimiter.is_allowed cfg "u" (Some 3) (Some (-5)) 1000000 ∅).2 !! key_of "u" = None.
Proof.
  split.
  - apply (policy_is_not_validated (Config 100 60) "u" (Some (-1)) (Some 5) 1000000 ∅).
    simpl. lia.
  - apply (policy_is_not_validated (Config 100 60) "u" (Some 3) (Some (-5)) 1000000 ∅).
    simpl. lia.
Defined.

(** ** Isolation of identifiers *)

Lemma key_of_inj id1 id2 : key_of id1 = key_of id2 → id1 = id2.
Proof. unfold key_of. apply (inj (String.append _)). Qed.

Section isolation.
Context (cfg : RateLimiterConfig).

(** A call writes only the key of its own identifier. *)
Lemma perform_other c now s id :
  subject c ≠ id → (perform cfg c now s).2 !! key_of id = s !! key_of id.
Proof.
  intros Hne.
  assert (key_of (subject c) ≠ key_of id) as Hk by (intros E; by apply key_of_inj in E).
  destruct c as [i m w|i|i w]; simpl in *; unfold Redis.bind, Redis.ret;
    unfold RateLimiter.is_allowed, RateLimiter.reset, RateLimiter.get_usage.
  - rewrite is_allowed_spec. simpl. by rewrite lookup_partial_alter_ne.
  - rewrite reset_spec. simpl. by rewrite lookup_delete_ne.
  - rewrite get_usage_spec. simpl. by rewrite lookup_partial_alter_ne.
Qed.

(** Its reply, and what it leaves under that key, depend on that key alone. *)
Lemma perform_local c now s1 s2 :
  s1 !! key_of (subject c) = s2 !! key_of (subject c) →
  (perform cfg c now s1).1 = (perform cfg c now s2).1 ∧
  (perform cfg c now s1).2 !! key_of (subject c)
  = (perform cfg c now s2).2 !! key_of (subject c).
Proof.
  intros E.
  destruct c as [i m w|i|i w]; simpl in *; unfold Redis.bind, Redis.ret;
    unfold RateLimiter.is_allowed, RateLimiter.reset, RateLimiter.get_usage.
  - rewrite !is_allowed_spec. simpl. by rewrite !lookup_partial_alter_eq, E.
  - rewrite !reset_spec. simpl. by rewrite !lookup_delete_eq, E.
  - rewrite !get_usage_spec. simpl. by rewrite !lookup_partial_alter_eq, E.
Qed.

Lemma observe_calls_on id trace : ∀ s s',
  s !! key_of id = s' !! key_of id →
  observe cfg id trace s = observe cfg id (calls_on id trace) s'.
Proof.
  unfold calls_on.
  induction trace as [|[c now] trace IH]; intros s s' E; [done|].
  rewrite filter_cons. cbn [observe fst].
  destruct (decide (subject c = id)) as [Hc|Hc].
  - cbn [observe]. subst id.
    destruct (perform_local c now s s' E) as [Hr Hs].
    destruct (perform cfg c now s) as [r s1], (perform cfg c now s') as [r' s1'].
    rewrite decide_True by done.
    simpl in *. subst r'. f_equal. by apply IH.
  - pose proof (perform_other c now s id Hc) as Hs.
    destruct (perform cfg c now s) as [r s1]. simpl in Hs.
    apply IH. by rewrite Hs.
Qed.

Lemma calls_on_calls_off id1 id2 trace :
  id1 ≠ id2 → calls_on id2 (calls_off id1 trace) = calls_on id2 trace.
Proof.
  intros Hne. unfold calls_on, calls_off.
  induction trace as [|[c now] trace IH]; [done|].
  rewrite !filter_cons. cbn [fst].
  destruct (decide (subject c ≠ id1)) as [H1|H1].
  - rewrite filter_cons. cbn [fst]. by rewrite IH.
  - rewrite IH. rewrite decide_False; [done|]. intros E.
    apply H1. congruence.
Qed.

End isolation.

(** C8.  Two runs from the same store whose traces differ only in the calls
    made on [id1] return, for every call made on another identifier [id2],
    the same reply: the same verdict and the same metadata for [is_allowed],
    the same count for [get_usage], the same result for [reset]. *)
Theorem calls_on_other_identifier_unaffected cfg id1 id2 trace1 trace2 s :
  id1 ≠ id2 →
  calls_off id1 trace1 = calls_off id1 trace2 →
  observe cfg id2 trace1 s = observe cfg id2 trace2 s.
Proof.
  intros Hne Htr.
  rewrite (observe_calls_on cfg id2 trace1 s s eq_refl).
  rewrite (observe_calls_on cfg id2 trace2 s s eq_refl).
  rewrite <- (calls_on_calls_off id1 id2 trace1 Hne).
  rewrite <- (calls_on_calls_off id1 id2 trace2 Hne).
  by rewrite Htr.
Qed.

Lemma calls_on_other_identifier_unaffected_witness :
  let cfg := Config 100 60 in
  observe cfg "b"
    [(IsAllowed "a" (Some 1) (Some 5), 0); (IsAllowed "b" (Some 1) (Some 5), 1);
     (IsAllowed "a" (Some 1) (Some 5), 2); (GetUsage "b" (Some 5), 3)] ∅
  = observe cfg "b"
      [(IsAllowed "b" (Some 1) (Some 5), 1); (DoReset "a", 2);
       (GetUsage "b" (Some 5), 3); (GetUsage "a" None, 4)] ∅.
Proof.
  apply (calls_on_other_identifier_unaffected (Config 100 60) "a" "b");
    [discriminate | reflexivity].
Defined.

(** ** Two calls racing for one identifier *)

Section race.
Import Redis Concurrent.
Context (cfg : RateLimiterConfig) (id : string).

Lemma check_batch_spec m w now s :
  check_batch cfg id m w now s =
  (outcome (py_or m (default_requests cfg)) (py_or w (default_window cfg)) now
     (Z.of_nat (size (window now (window_start 0 cfg w now) (s !! key_of id)))),
   partial_alter
     (λ _, after_pipeline now (window_start 0 cfg w now)
             (py_or w (default_window cfg)) (s !! key_of id))
     (key_of id) s).
Proof.
  unfold check_batch, outcome, window_start. rewrite Z.sub_0_r.
  unfold bind at 1.
  destruct (pipeline_spec now (key_of id)
              (now - seconds (py_or w (default_window cfg)))
              (py_or w (default_window cfg)) s)
    as (removed & added & ok & ->).
  done.
Qed.

(** The sequential function is the batch followed, on rejection, by the
    retraction. *)
Lemma is_allowed_split m w now s :
  RateLimiter.is_allowed cfg id m w now s =
  let '(r, s1) := check_batch cfg id m w now s in
  if r.1 then (r, s1) else (r, (check_retract id now s1).2).
Proof.
  unfold RateLimiter.is_allowed, SlidingWindow.is_allowed, check_batch, check_retract.
  rewrite Z.sub_0_r. unfold bind, ret.
  destruct (SlidingWindow.pipeline _ _ _ _ s) as [results s1]. simpl.
  case_bool_decide; [done|].
  by destruct (zrem now (key_of id) (str now) s1).
Qed.

Context (w t1 t2 : Z).
Hypothesis w_pos : 1 ≤ w.
Hypothesis close1 : t1 - t2 < seconds w.
Hypothesis close2 : t2 - t1 < seconds w.

Abbreviation race_inv := (race_inv id w t1 t2).

(** What the first batch leaves, and what the second one then observes. *)
Lemma first_batch s now :
  s !! key_of id = None →
  (check_batch cfg id (Some 1) (Some w) now s).1.1 = true ∧
  (check_batch cfg id (Some 1) (Some w) now s).2 !! key_of id
  = Some (ZKey {[ str now := now ]} (Some (now + seconds w))).
Proof.
  intros Habs. rewrite check_batch_spec, Habs. simpl.
  rewrite lookup_partial_alter_eq.
  unfold after_pipeline, window. simpl.
  destruct (decide (w = 0)); [lia|].
  rewrite (bool_decide_false (w ≤ 0)) by lia.
  rewrite (map_size_empty (M:=gmap string)), insert_empty. done.
Qed.

Lemma second_batch s now now' :
  now' - now < seconds w → now - now' < seconds w →
  s !! key_of id = Some (ZKey {[ str now := now ]} (Some (now + seconds w))) →
  (check_batch cfg id (Some 1) (Some w) now' s).1.1 = false.
Proof.
  intros H1 H2 Hs. rewrite check_batch_spec, Hs. simpl.
  unfold window_start. simpl. destruct (decide (w = 0)); [lia|].
  rewrite Z.sub_0_r, window_live by lia.
  rewrite outside_all.
  - by rewrite map_size_singleton.
  - intros mem sc Hm. apply lookup_singleton_Some in Hm as [_ <-]. lia.
Qed.

Lemma race_inv_step c c' : race_inv c → step cfg id c c' → race_inv c'.
Proof.
  intros Hinv Hstep.
  destruct Hstep as [s threads i m0 w0 now r s' Hi Hb|s threads i now r n s' Hi Hr];
    unfold race_inv in *; simpl in Hinv;
    destruct Hinv as [[-> Hs]|[(r1 & -> & Hr1 & Hs)|[(r2 & -> & Hr2 & Hs)|
                      [(r1 & r2 & -> & Hr1 & Hr2)|[(r1 & r2 & -> & Hr1 & Hr2)|
                       (r1 & r2 & -> & Hr12)]]]]];
    destruct i as [|[|i]]; simpl in Hi; try discriminate Hi;
    first [injection Hi as <- <- <- | injection Hi as <- <-]; simpl.
  - destruct (first_batch s t1 Hs) as [Hv Hk]. rewrite Hb in Hv, Hk. simpl in *.
    rewrite Hv. right; left. by exists r.
  - destruct (first_batch s t2 Hs) as [Hv Hk]. rewrite Hb in Hv, Hk. simpl in *.
    rewrite Hv. right; right; left. by exists r.
  - pose proof (second_batch s t1 t2 close2 close1 Hs) as Hv. rewrite Hb in Hv.
    simpl in Hv. rewrite Hv. right; right; right; left. by exists r1, r.
  - pose proof (second_batch s t2 t1 close1 close2 Hs) as Hv. rewrite Hb in Hv.
    simpl in Hv. rewrite Hv. right; right; right; right; left. by exists r, r2.
  - right; right; right; right; right. exists r1, r2. by rewrite Hr1, Hr2.
  - right; right; right; right; right. exists r1, r2. by rewrite Hr1, Hr2.
Qed.

Lemma race_inv_rtc c c' : race_inv c → rtc (step cfg id) c c' → race_inv c'.
Proof. intros Hinv Hrtc. induction Hrtc; eauto using race_inv_step. Qed.

End race.

(** Building an execution access by access: call [i] runs its batch, whose
    reply and resulting store are those of [b]; call [i] runs its retraction
    [z]. *)
Ltac run_batch i b :=
  eapply rtc_l;
  [ eapply (Concurrent.step_batch _ _ _ _ i);
    [ reflexivity | apply (surjective_pairing b) ] | ].

Ltac run_retract i z :=
  eapply rtc_l;
  [ eapply (Concurrent.step_retract _ _ _ _ i);
    [ reflexivity | apply (surjective_pairing z) ] | ].

(** C9, as stated, fails: the retraction is not atomic with the batch.  With
    one allowed event stored, a call under [(1, 10)] is rejected; between
    its batch and its retraction a call under [(2, 10)] counts the rejected
    event and is rejected too, although it is allowed in both serial orders
    of the two calls. *)
Lemma rejected_event_seen_before_retraction :
  let cfg := Config 100 60 in
  let s := (RateLimiter.is_allowed cfg "r" (Some 1) (Some 10) 100 ∅).2 in
  let c1 := (Some 1, Some 10, 101) in
  let c2 := (Some 2, Some 10, 102) in
  ∃ s' r1 r2,
    rtc (Concurrent.step cfg "r")
      (s, [Concurrent.Pending (Some 1) (Some 10) 101;
           Concurrent.Pending (Some 2) (Some 10) 102])
      (s', [Concurrent.Returned r1; Concurrent.Returned r2]) ∧
    r2.1 = false ∧
    (Concurrent.serial cfg "r" c1 c2 s).2.1 = true ∧
    (Concurrent.serial cfg "r" c2 c1 s).1.1 = true ∧
    ¬ Concurrent.serializable cfg "r" c1 c2 s r1 r2.
Proof.
  intros cfg s c1 c2.
  set (b1 := Concurrent.check_batch cfg "r" (Some 1) (Some 10) 101 s).
  set (b2 := Concurrent.check_batch cfg "r" (Some 2) (Some 10) 102 b1.2).
  set (z1 := Concurrent.check_retract "r" 101 b2.2).
  set (z2 := Concurrent.check_retract "r" 102 z1.2).
  assert (b1.1.1 = false) as Hb1 by by vm_compute.
  assert (b2.1.1 = false) as Hb2 by by vm_compute.
  exists z2.2, b1.1, b2.1. split_and!.
  - run_batch 0%nat b1. rewrite Hb1. simpl.
    run_batch 1%nat b2. rewrite Hb2. simpl.
    run_retract 0%nat z1. simpl.
    run_retract 1%nat z2. simpl.
    apply rtc_refl.
  - exact Hb2.
  - by vm_compute.
  - by vm_compute.
  - intros [E|E].
    + apply (f_equal (λ p, p.2.1)) in E. by vm_compute in E.
    + apply (f_equal (λ p, p.1.1)) in E. by vm_compute in E.
Qed.

(** C9, amended.  Two calls racing on one identifier under the policy
    [(1, w)], from an absent key and with readings less than a window apart:
    however their store accesses interleave, both calls return, and exactly
    one of them is allowed.  (The batch of a call is one atomic store access;
    the retraction of a rejected call is a second, separate one.) *)
Theorem one_slot_race_allows_exactly_one cfg id w t1 t2 s :
  1 ≤ w →
  t1 - t2 < seconds w →
  t2 - t1 < seconds w →
  s !! key_of id = None →
  let start := (s, [Concurrent.Pending (Some 1) (Some w) t1;
  Concurrent.Pending (Some 1) (Some w) t2]) in
  (∃ s' r1 r2,
     rtc (Concurrent.step cfg id) start
       (s', [Concurrent.Returned r1; Concurrent.Returned r2])) ∧
  (∀ s' r1 r2,
     rtc (Concurrent.step cfg id) start
       (s', [Concurrent.Returned r1; Concurrent.Returned r2]) →
     r1.1 = negb r2.1).
Proof.
  intros Hw H12 H21 Habs start. split.
  - destruct (first_batch cfg id w Hw s t1 Habs) as [Hv1 Hk1].
    pose proof (second_batch cfg id w Hw _ t1 t2 H21 H12 Hk1) as Hv2.
    set (b1 := Concurrent.check_batch cfg id (Some 1) (Some w) t1 s) in *.
    set (b2 := Concurrent.check_batch cfg id (Some 1) (Some w) t2 b1.2) in *.
    set (z2 := Concurrent.check_retract id t2 b2.2).
    exists z2.2, b1.1, b2.1. unfold start.
    run_batch 0%nat b1. rewrite Hv1. simpl.
    run_batch 1%nat b2. rewrite Hv2. simpl.
    run_retract 1%nat z2. simpl.
    apply rtc_refl.
  - intros s' r1 r2 Hrun.
    assert (Concurrent.race_inv id w t1 t2 start) as Hinv by (left; by split).
    pose proof (race_inv_rtc cfg id w t1 t2 Hw H12 H21 _ _ Hinv Hrun) as Hfin.
    unfold Concurrent.race_inv in Hfin. simpl in Hfin.
    destruct Hfin as [[? _]|[(? & ? & _)|[(? & ? & _)|[(? & ? & ? & _)|
    [(? & ? & ? & _)|(r1' & r2' & E & H)]]]]]; try discriminate.
    by injection E as -> ->.
Qed.

Lemma one_slot_race_allows_exactly_one_witness :
  let start := (∅, [Concurrent.Pending (Some 1) (Some 10) 0;
  Concurrent.Pending (Some 1) (Some 10) 1]) in
  (∃ s' r1 r2,
     rtc (Concurrent.step (Config 100 60) "r") start
       (s', [Concurrent.Returned r1; Concurrent.Returned r2])) ∧
  (∀ s' r1 r2,
     rtc (Concurrent.step (Config 100 60) "r") start
       (s', [Concurrent.Returned r1; Concurrent.Returned r2]) →
     r1.1 = negb r2.1).
Proof.
  apply (one_slot_race_allows_exactly_one (Config 100 60) "r" 10 0 1 ∅);
    [lia | reflexivity | reflexivity | reflexivity].
Defined.

(** * Further properties of the limiter *)

Lemma window_outside now ws o :
  ∀ mem sc, window now ws o !! mem = Some sc → ¬ (0 ≤ sc ≤ ws).
Proof.
  intros mem sc. unfold window. destruct (Redis.live now o); [|done].
  rewrite outside_lookup. tauto.
Qed.

Lemma window_after_usage eps cfg w now o :
  window now (window_start eps cfg w now) (after_usage eps cfg w now o)
  = window now (window_start eps cfg w now) o.
Proof.
  unfold after_usage, window at 2.
  destruct (Redis.live now o) as [k|] eqn:Hk; [|done].
  pose proof (live_Some _ _ _ Hk) as Hk'.
  unfold window. rewrite (live_keep_nonempty now _ _ k Hk' eq_refl).
  unfold Redis.keep_nonempty. case_decide as E; [by rewrite E|].
  simpl. apply outside_all. intros mem sc. rewrite outside_lookup. tauto.
Qed.

Lemma after_usage_idemp eps cfg w now o :
  after_usage eps cfg w now (after_usage eps cfg w now o) = after_usage eps cfg w now o.
Proof.
  unfold after_usage at 2 3.
  destruct (Redis.live now o) as [k|] eqn:Hk; [|done].
  pose proof (live_Some _ _ _ Hk) as Hk'.
  unfold after_usage. rewrite (live_keep_nonempty now _ _ k Hk' eq_refl).
  unfold Redis.keep_nonempty. case_decide as E; [done|].
  simpl. rewrite outside_all.
  - by rewrite decide_False.
  - intros mem sc. rewrite outside_lookup. tauto.
Qed.

(** X1.  [get_usage] is idempotent: asked again at the same instant, it
    returns the same count and leaves the store as its first call left it. *)
Theorem get_usage_twice cfg id w now s :
  RateLimiter.get_usage cfg id w now (RateLimiter.get_usage cfg id w now s).2
  = RateLimiter.get_usage cfg id w now s.
Proof.
  unfold RateLimiter.get_usage. rewrite !get_usage_spec. simpl.
  rewrite lookup_partial_alter_eq, pa_pa.
  by rewrite window_after_usage, after_usage_idemp.
Qed.

(** X2.  [get_usage] only removes.  The events it leaves are among those
    stored before, with their scores; when any event is left the expiry of
    the key is what it was; and no other key of the store changes. *)
Theorem get_usage_only_removes cfg id w now s :
  let s' := (RateLimiter.get_usage cfg id w now s).2 in
  stored s' id ⊆ stored s id ∧
  (stored s' id ≠ ∅ → expiry s' id = expiry s id) ∧
  (∀ key, key ≠ key_of id → s' !! key = s !! key).
Proof.
  simpl. unfold RateLimiter.get_usage. rewrite get_usage_spec. simpl.
  unfold stored, expiry. rewrite lookup_partial_alter_eq.
  unfold after_usage. split_and!.
  - destruct (s !! key_of id) as [k|]; simpl; [|done].
    destruct (Redis.expired now k); [apply map_empty_subseteq|].
    unfold Redis.keep_nonempty. case_decide; [apply map_empty_subseteq|].
    simpl. apply map_filter_subseteq.
  - destruct (s !! key_of id) as [k|]; simpl; [|done].
    destruct (Redis.expired now k); [done|].
    unfold Redis.keep_nonempty. by case_decide.
  - intros key Hne. by rewrite lookup_partial_alter_ne.
Qed.

(** X3.  [reset] answers whether the identifier had a live record and leaves
    none: a second [reset] answers [False] and changes nothing, [get_usage]
    then returns 0 whatever the window and the instant, and for an
    identifier without a key [reset] answers [False] and leaves the store as
    it is. *)
Theorem reset_clears_record id now s :
  let s' := (RateLimiter.reset id now s).2 in
  (RateLimiter.reset id now s).1
  = bool_decide (is_Some (Redis.live now (s !! key_of id))) ∧
  (∀ now', RateLimiter.reset id now' s' = (false, s')) ∧
  (∀ cfg w now', (RateLimiter.get_usage cfg id w now' s').1 = 0) ∧
  (s !! key_of id = None → RateLimiter.reset id now s = (false, s)).
Proof.
  simpl. unfold RateLimiter.reset, RateLimiter.get_usage.
  rewrite reset_spec. simpl. split_and!.
  - done.
  - intros now'. rewrite reset_spec, lookup_delete_eq. simpl.
    by rewrite delete_delete_eq.
  - intros cfg w now'. by rewrite usage_count, lookup_delete_eq.
  - intros Habs. rewrite Habs. simpl. by rewrite delete_id.
Qed.

(** X5.  An allowed call takes exactly one slot.  For a policy with a
    positive window and a call whose reading is not yet stored under the
    key: if [is_allowed] lets the call through, [get_usage] at that instant
    returns one more than it returned before the call. *)
Theorem allowed_call_takes_one_slot cfg id m w now s :
  1 ≤ py_or w (default_window cfg) →
  fresh now (s !! key_of id) = true →
  (RateLimiter.is_allowed cfg id m w now s).1.1 = true →
  (RateLimiter.get_usage cfg id w now (RateLimiter.is_allowed cfg id m w now s).2).1
  = (RateLimiter.get_usage cfg id w now s).1 + 1.
Proof.
  intros Hw Hfresh Hallowed.
  unfold RateLimiter.get_usage, RateLimiter.is_allowed in *.
  rewrite !usage_count, is_allowed_key.
  rewrite is_allowed_spec in Hallowed. simpl in Hallowed.
  apply bool_decide_eq_true in Hallowed.
  pose proof (seconds_pos _ Hw) as HW.
  unfold after_check, after_pipeline. rewrite bool_decide_true by done.
  rewrite bool_decide_false by lia.
  rewrite window_live by lia.
  rewrite outside_all.
  - rewrite map_size_insert_None by (by apply window_fresh). lia.
  - intros mem sc. rewrite lookup_insert. case_decide.
    + intros [= <-]. unfold window_start. lia.
    + apply window_outside.
Qed.

Lemma allowed_call_takes_one_slot_witness :
  let cfg := Config 100 60 in
  let s := (check_all cfg "u" (Some 3) (Some 5) [0] ∅).2 in
  (RateLimiter.get_usage cfg "u" (Some 5) 1
     (RateLimiter.is_allowed cfg "u" (Some 3) (Some 5) 1 s).2).1
  = (RateLimiter.get_usage cfg "u" (Some 5) 1 s).1 + 1.
Proof.
  apply (allowed_call_takes_one_slot (Config 100 60) "u" (Some 3) (Some 5) 1
           (check_all (Config 100 60) "u" (Some 3) (Some 5) [0] ∅).2);
    [simpl; lia | reflexivity | reflexivity].
Defined.

Lemma window_subseteq now ws o :
  window now ws o ⊆ from_option members ∅ o.
Proof.
  unfold window. destruct o as [k|]; simpl; [|done].
  destruct (Redis.expired now k); [apply map_empty_subseteq|].
  apply map_filter_subseteq.
Qed.

(** One call leaves at most as many events as the larger of what was stored
    and the limit in force. *)
Lemma is_allowed_size cfg id m w now s :
  Z.of_nat (size (stored (RateLimiter.is_allowed cfg id m w now s).2 id))
  ≤ Z.max (Z.of_nat (size (stored s id))) (py_or m (default_requests cfg)).
Proof.
  unfold stored, RateLimiter.is_allowed. rewrite is_allowed_key.
  pose proof (map_subseteq_size _ _
    (window_subseteq now (window_start 0 cfg w now) (s !! key_of id))) as Hsub.
  assert (size (from_option members ∅ (s !! key_of id))
          = size (match s !! key_of id with Some k => members k | None => ∅ end)) as E
    by by destruct (s !! key_of id).
  rewrite E in Hsub. clear E.
  unfold after_check, after_pipeline.
  set (z := window now (window_start 0 cfg w now) (s !! key_of id)) in *.
  case_bool_decide as Hlt; case_bool_decide; simpl;
    rewrite ?(map_size_empty (M:=gmap string)); try lia.
  - rewrite map_size_insert. destruct (z !! str now); simpl; lia.
  - unfold Redis.keep_nonempty. case_decide; simpl;
      rewrite ?(map_size_empty (M:=gmap string)); try lia.
    pose proof (map_subseteq_size _ _ (delete_subseteq z (str now))). lia.
Qed.

Lemma perform_size cfg c now s id :
  Z.of_nat (size (stored (perform cfg c now s).2 id))
  ≤ Z.max (Z.of_nat (size (stored s id)))
          (if decide (subject c = id) then default 0 (limit_in_force cfg c) else 0).
Proof.
  destruct (decide (subject c = id)) as [<-|Hne].
  - destruct c as [i m w|i|i w]; simpl; unfold Redis.bind, Redis.ret.
    + pose proof (is_allowed_size cfg i m w now s).
      by destruct (RateLimiter.is_allowed cfg i m w now s).
    + unfold RateLimiter.reset. rewrite reset_spec. simpl.
      unfold stored at 1. rewrite lookup_delete_eq, (map_size_empty (M:=gmap string)). lia.
    + destruct (get_usage_only_removes cfg i w now s) as [Hsub _].
      apply map_subseteq_size in Hsub.
      destruct (RateLimiter.get_usage cfg i w now s). simpl in *. lia.
  - pose proof (perform_other cfg c now s id Hne) as E.
    unfold stored. rewrite E. lia.
Qed.

(** X4.  The record of an identifier stays bounded.  If it holds at most
    [bound] events and every [is_allowed] call made on the identifier along
    a trace (any operations, any identifiers, any windows, any readings) has
    a limit in force of at most [bound], it holds at most [bound] events
    after the trace. *)
Theorem record_stays_bounded cfg id bound trace s :
  Z.of_nat (size (stored s id)) ≤ bound →
  limits_within cfg id bound trace = true →
  Z.of_nat (size (stored (run cfg trace s) id)) ≤ bound.
Proof.
  revert s. induction trace as [|[c now] trace IH]; intros s Hs Hlim; [done|].
  simpl in Hlim. apply andb_prop in Hlim as [Hc Hlim].
  simpl. apply IH; [|done].
  pose proof (perform_size cfg c now s id) as Hstep.
  destruct (decide (subject c = id)); [|lia].
  destruct (limit_in_force cfg c) as [l|]; simpl in *; [|lia].
  apply bool_decide_eq_true in Hc. lia.
Qed.

Lemma record_stays_bounded_witness :
  Z.of_nat (size (stored
    (run (Config 100 60)
       [(IsAllowed "u" (Some 2) (Some 5), 0); (IsAllowed "v" (Some 9) None, 1);
        (IsAllowed "u" (Some 2) (Some 5), 2); (GetUsage "u" (Some 1), 3);
        (IsAllowed "u" (Some 1) (Some 5), 4); (IsAllowed "u" (Some 2) (Some 5), 5)]
       ∅) "u")) ≤ 2.
Proof.
  apply (record_stays_bounded (Config 100 60) "u" 2); [by vm_compute | reflexivity].
Defined.

Lemma after_check_expiry eps cfg m w now o k :
  after_check eps cfg m w now o = Some k →
  expire_at k = Some (now + seconds (py_or w (default_window cfg))).
Proof.
  unfold after_check, after_pipeline, Redis.keep_nonempty.
  repeat (case_bool_decide || case_decide); by intros [= <-].
Qed.

(** X6.  The quota comes back after the window.  Whatever the store held,
    once [is_allowed] has been called for an identifier at [t1] with a
    window [w1] in force, a call made more than [w1] seconds after [t1],
    under any policy with [m ≥ 1], is allowed with [remaining = m - 1]:
    the key has expired with everything it held. *)
Theorem quota_restored_after_window cfg id m1 w1 t1 m w now s :
  1 ≤ m →
  t1 + seconds (py_or w1 (default_window cfg)) < now →
  let s1 := (RateLimiter.is_allowed cfg id m1 w1 t1 s).2 in
  let r := (RateLimiter.is_allowed cfg id (Some m) w now s1).1 in
  r.1 = true ∧ remaining r.2 = m - 1 ∧
  (RateLimiter.get_usage cfg id w now s1).1 = 0.
Proof.
  intros Hm Hlate. simpl.
  unfold RateLimiter.is_allowed, RateLimiter.get_usage.
  rewrite is_allowed_reply, usage_count, is_allowed_key.
  assert (window now (window_start 0 cfg w now)
            (after_check 0 cfg m1 w1 t1 (s !! key_of id)) = ∅) as ->.
  { destruct (after_check 0 cfg m1 w1 t1 (s !! key_of id)) as [k|] eqn:E; [|done].
    apply after_check_expiry in E. unfold window. simpl.
    unfold Redis.expired. rewrite E. by rewrite bool_decide_true by lia. }
  rewrite (map_size_empty (M:=gmap string)). simpl.
  case_decide; [lia|]. rewrite bool_decide_true by lia.
  split_and!; [done|lia|done].
Qed.

Lemma quota_restored_after_window_witness :
  let cfg := Config 100 60 in
  let s := (check_all cfg "u" (Some 3) (Some 5) [0; 1000000; 2000000] ∅).2 in
  let s1 := (RateLimiter.is_allowed cfg "u" (Some 3) (Some 5) 3000000 s).2 in
  let r := (RateLimiter.is_allowed cfg "u" (Some 3) (Some 5) 9000000 s1).1 in
  r.1 = true ∧ remaining r.2 = 3 - 1 ∧
  (RateLimiter.get_usage cfg "u" (Some 5) 9000000 s1).1 = 0.
Proof.
  apply (quota_restored_after_window (Config 100 60) "u" (Some 3) (Some 5) 3000000
           3 (Some 5) 9000000
           (check_all (Config 100 60) "u" (Some 3) (Some 5) [0; 1000000; 2000000] ∅).2);
    [lia | reflexivity].
Defined.

(** * The in-memory limiter *)

Lemma filter_all {A} (P : A → Prop) `{!∀ x, Decision (P x)} (l : list A) :
  Forall P l → filter P l = l.
Proof.
  induction 1 as [|x l Hx _ IH]; [done|]. by rewrite filter_cons_True, IH.
Qed.

Lemma filter_none {A} (P : A → Prop) `{!∀ x, Decision (P x)} (l : list A) :
  Forall (λ x, ¬ P x) l → filter P l = [].
Proof.
  induction 1 as [|x l Hx _ IH]; [done|]. by rewrite filter_cons_False, IH.
Qed.

Section demo.
Context (self : Demo.SimpleRateLimitMiddleware) (id : string).
Let m := Demo.max_requests self.
Let w := Demo.window_seconds self.

(** One call in closed form: the reply read off the readings still in the
    window, which are written back, with the new reading when allowed. *)
Lemma demo_is_allowed_spec now st :
  let kept := filter (λ ts, now - seconds w < ts) (Demo.readings st id) in
  Demo._is_allowed self id now st
  = (outcome m w now (Z.of_nat (length kept)),
     <[ id := if bool_decide (Z.of_nat (length kept) < m)
              then kept ++ [now] else kept ]> st).
Proof.
  simpl. unfold Demo._is_allowed, outcome, Demo.readings. fold m w.
  case_bool_decide; [|done]. by rewrite insert_insert_eq.
Qed.

Lemma demo_check_all_cons now times st :
  Demo.check_all self id (now :: times) st
  = let kept := filter (λ ts, now - seconds w < ts) (Demo.readings st id) in
    let st' := <[ id := if bool_decide (Z.of_nat (length kept) < m)
                        then kept ++ [now] else kept ]> st in
    (outcome m w now (Z.of_nat (length kept)) :: (Demo.check_all self id times st').1,
     (Demo.check_all self id times st').2).
Proof.
  cbn [Demo.check_all]. rewrite demo_is_allowed_spec. simpl.
  by destruct (Demo.check_all self id times _).
Qed.

(** While every stored reading and every coming reading lies in one window
    that starts at [lo], nothing ages out and the replies are the expected
    ones. *)
Lemma demo_check_all_expected lo times : ∀ st,
  Forall (λ ts, lo ≤ ts) (Demo.readings st id) →
  Forall (λ t, lo ≤ t < lo + seconds w) times →
  (Demo.check_all self id times st).1
  = expected m w (Z.of_nat (length (Demo.readings st id))) times.
Proof.
  induction times as [|t times IH]; intros st Hst Htimes; [done|].
  apply Forall_cons in Htimes as [[Hlo Hhi] Htimes].
  rewrite demo_check_all_cons. simpl.
  assert (filter (λ ts, t - seconds w < ts) (Demo.readings st id)
          = Demo.readings st id) as Hkept.
  { apply filter_all. eapply Forall_impl; [exact Hst|]. simpl. lia. }
  rewrite Hkept. f_equal.
  rewrite IH; [|unfold Demo.readings; rewrite lookup_insert_eq; simpl|done].
  - f_equal. unfold Demo.readings at 1. rewrite lookup_insert_eq. simpl.
    case_bool_decide; [|done]. rewrite length_app. simpl. lia.
  - case_bool_decide; [|done]. apply Forall_app. split; [done|].
    by repeat constructor.
Qed.

End demo.

Lemma nondecreasing_above a l : nondecreasing (a :: l) = true → Forall (λ t, a ≤ t) l.
Proof.
  revert a. induction l as [|b l IH]; intros a H; [constructor|].
  cbn [nondecreasing] in H. apply andb_prop in H as [Hab H].
  apply bool_decide_eq_true in Hab. constructor; [done|].
  eapply Forall_impl; [by apply IH|]. simpl. lia.
Qed.

(** X7.  The in-memory limiter lets through exactly the first [m] requests
    of a burst.  From an identifier without stored readings, for requests
    whose readings never go back (equal readings included) and stay within
    one window of the first: the request at position [i] (from 0) is allowed
    exactly when [i < m], and its [remaining] is [max(0, m - i - 1)]. *)
Theorem demo_first_m_requests_allowed self id times st i r :
  Demo.readings st id = [] →
  nondecreasing times = true →
  within_window (Demo.window_seconds self) times = true →
  (Demo.check_all self id times st).1 !! i = Some r →
  r.1 = bool_decide (Z.of_nat i < Demo.max_requests self) ∧
  remaining r.2 = Z.max 0 (Demo.max_requests self - Z.of_nat i - 1).
Proof.
  intros Hst Hinc Hwin Hr.
  destruct times as [|t0 times]; [done|].
  pose proof (within_window_forall _ _ _ Hwin) as Hhi.
  pose proof (nondecreasing_above _ _ Hinc) as Hlo.
  assert (Forall (λ t, t0 ≤ t < t0 + seconds (Demo.window_seconds self)) (t0 :: times))
    as Hall.
  { apply Forall_cons in Hhi as [? Hhi]. constructor; [lia|].
    apply Forall_forall. intros t Ht.
    rewrite Forall_forall in Hhi, Hlo. specialize (Hhi t Ht). specialize (Hlo t Ht). lia. }
  rewrite (demo_check_all_expected self id t0) in Hr; [|by rewrite Hst|done].
  rewrite Hst in Hr. apply expected_lookup in Hr as (t & _ & ->). simpl.
  split; [apply bool_decide_ext|]; lia.
Qed.

Lemma demo_first_m_requests_allowed_witness :
  (false, {| limit := 2; remaining := 0; reset_time := 10; retry_after := 10 |}).1
  = bool_decide (Z.of_nat 2 < Demo.max_requests (Demo.Simple 2 10)) ∧
  remaining (false, {| limit := 2; remaining := 0; reset_time := 10; retry_after := 10 |}).2
  = Z.max 0 (Demo.max_requests (Demo.Simple 2 10) - Z.of_nat 2 - 1).
Proof.
  apply (demo_first_m_requests_allowed (Demo.Simple 2 10) "u" [7; 7; 7] ∅ 2%nat
           (false, {| limit := 2; remaining := 0; reset_time := 10; retry_after := 10 |}));
    reflexivity.
Defined.

(** X8.  The in-memory record stays bounded, and requests of one client
    touch no other client.  After any sequence of requests of an identifier,
    at any readings, its list holds at most as many readings as the larger
    of the limit and what it held before; the lists of all other identifiers
    are as they were. *)
Theorem demo_record_stays_bounded self id times st :
  Z.of_nat (length (Demo.readings (Demo.check_all self id times st).2 id))
  ≤ Z.max (Z.of_nat (length (Demo.readings st id))) (Demo.max_requests self) ∧
  (∀ id', id' ≠ id → (Demo.check_all self id times st).2 !! id' = st !! id').
Proof.
  revert st. induction times as [|t times IH]; intros st.
  { simpl. split; [lia|done]. }
  rewrite demo_check_all_cons. simpl.
  set (kept := filter _ (Demo.readings st id)).
  set (st' := <[ id := _ ]> st).
  destruct (IH st') as [IH1 IH2]. split.
  - etrans; [exact IH1|].
    pose proof (length_filter (λ ts, t - seconds (Demo.window_seconds self) < ts)
                  (Demo.readings st id)) as Hlen. fold kept in Hlen.
    assert (Demo.readings st' id
            = if bool_decide (Z.of_nat (length kept) < Demo.max_requests self)
              then kept ++ [t] else kept) as ->
      by (unfold Demo.readings, st'; by rewrite lookup_insert_eq).
    case_bool_decide; [rewrite length_app; simpl|]; lia.
  - intros id' Hne. rewrite IH2 by done. unfold st'. by rewrite lookup_insert_ne.
Qed.

(** * The Redis limiter against the in-memory one *)

Lemma encode_lookup l mem sc :
  NoDup l → encode l !! mem = Some sc ↔ mem = str sc ∧ sc ∈ l.
Proof.
  intros Hl. unfold encode. rewrite <- elem_of_list_to_map.
  - rewrite list_elem_of_fmap. split.
    + intros (t & [= -> ->] & Ht). done.
    + intros [-> Ht]. by exists sc.
  - rewrite <- list_fmap_compose.
    apply (NoDup_fmap_2_strong _ l); [|done].
    intros a b _ _ E. by apply str_inj.
Qed.

Lemma encode_size l : NoDup l → size (encode l) = length l.
Proof.
  intros Hl. unfold encode. rewrite map_size_list_to_map, length_fmap; [done|].
  rewrite <- list_fmap_compose.
  apply (NoDup_fmap_2_strong _ l); [|done].
  intros a b _ _ E. by apply str_inj.
Qed.

Lemma encode_outside ws l :
  NoDup l → Forall (λ t, 0 ≤ t) l →
  Redis.outside 0 ws (encode l) = encode (filter (λ t, ws < t) l).
Proof.
  intros Hl Hpos. apply map_eq. intros mem. apply option_eq. intros sc.
  rewrite outside_lookup, !encode_lookup by (done || by apply NoDup_filter).
  rewrite list_elem_of_filter, Forall_forall in *.
  split.
  - intros [[-> Hin] Hout]. specialize (Hpos _ Hin). split; [done|]. split; [lia|done].
  - intros [-> [Hws Hin]]. split; [done|lia].
Qed.

Lemma encode_snoc l now :
  now ∉ l → encode (l ++ [now]) = <[ str now := now ]> (encode l).
Proof.
  intros Hnow. unfold encode. rewrite fmap_app. simpl.
  apply list_to_map_snoc. rewrite <- list_fmap_compose.
  rewrite list_elem_of_fmap. intros (t & E & Ht). simpl in E.
  apply str_inj in E. by subst.
Qed.

Lemma encode_fresh l now : NoDup l → now ∉ l → encode l !! str now = None.
Proof.
  intros Hl Hnow. destruct (encode l !! str now) as [sc|] eqn:E; [|done].
  apply encode_lookup in E as [E Hin]; [|done]. apply str_inj in E. by subst.
Qed.

Section side_by_side.
Context (cfg : RateLimiterConfig) (id : string) (m w : Z).
Hypothesis m_given : m ≠ 0.
Hypothesis w_pos : 1 ≤ w.
Let W := seconds w.
Let self := Demo.Simple m w.

(** What a call counts in the key is what the list keeps. *)
Lemma mirrors_window last l o now :
  mirrors W last l o → last < now →
  window now (now - W) o = encode (filter (λ t, now - W < t) l).
Proof.
  intros (Hnd & Hrange & Ho) Hnow. unfold window.
  destruct o as [k|]; simpl.
  - destruct Ho as (_ & Hmem & Hexp). unfold Redis.expired. rewrite Hexp.
    case_bool_decide as Hlate.
    + rewrite filter_none; [done|].
      eapply Forall_impl; [exact Hrange|]. simpl. lia.
    + rewrite Hmem. apply encode_outside; [done|].
      eapply Forall_impl; [exact Hrange|]. simpl. lia.
  - by rewrite Ho.
Qed.

(** One call on each side: the same count, and the key still mirrors the
    list. *)
Lemma mirrors_step last l o now :
  mirrors W last l o → last < now → 0 ≤ now →
  let kept := filter (λ t, now - W < t) l in
  Z.of_nat (size (window now (window_start 0 cfg (Some w) now) o))
  = Z.of_nat (length kept) ∧
  mirrors W now
    (if bool_decide (Z.of_nat (length kept) < m) then kept ++ [now] else kept)
    (after_check 0 cfg (Some m) (Some w) now o).
Proof.
  intros Hmir Hnow Hpos kept.
  pose proof (mirrors_window last l o now Hmir Hnow) as Hwin. fold kept in Hwin.
  destruct Hmir as (Hnd & Hrange & _).
  assert (NoDup kept) as Hndk by by apply NoDup_filter.
  assert (Forall (λ t, 0 ≤ t ≤ last) kept) as Hrk.
  { apply Forall_forall. intros t Ht. apply list_elem_of_filter in Ht as [_ Ht].
    rewrite Forall_forall in Hrange. by apply Hrange. }
  assert (now ∉ kept) as Hfresh.
  { intros Hin. rewrite Forall_forall in Hrk. specialize (Hrk _ Hin). lia. }
  assert (py_or (Some w) (default_window cfg) = w) as Ew
    by (simpl; case_decide; [lia|done]).
  assert (py_or (Some m) (default_requests cfg) = m) as Em
    by (simpl; by case_decide).
  assert (window_start 0 cfg (Some w) now = now - W) as Ews
    by (unfold window_start; rewrite Ew; fold W; lia).
  pose proof (seconds_pos _ w_pos) as HW. fold W in HW.
  rewrite Ews, Hwin, encode_size by done. split; [done|].
  unfold after_check, after_pipeline. rewrite Ews, Hwin, Em, Ew, encode_size by done.
  rewrite (bool_decide_false (w ≤ 0)) by lia. fold W.
  case_bool_decide as Hlt.
  - split_and!.
    + apply NoDup_app. split_and!; [done| |apply NoDup_singleton].
      intros t Ht Hin. apply list_elem_of_singleton in Hin. by subst.
    + apply Forall_app. split.
      * eapply Forall_impl; [exact Hrk|]. simpl. lia.
      * repeat constructor; lia.
    + by destruct kept.
    + simpl. by rewrite encode_snoc.
    + done.
  - rewrite delete_id by by apply encode_fresh.
    split_and!; [done|eapply Forall_impl; [exact Hrk|]; simpl; lia|].
    unfold Redis.keep_nonempty. case_decide as E.
    + apply (f_equal size) in E. rewrite encode_size, map_size_empty in E by done.
      by destruct kept.
    + split_and!; [|done..]. intros ->. by apply E.
Qed.

Lemma check_all_mirrors times : ∀ last s st,
  mirrors W last (Demo.readings st id) (s !! key_of id) →
  increasing (last :: times) = true →
  Forall (λ t, 0 ≤ t) times →
  (check_all cfg id (Some m) (Some w) times s).1 = (Demo.check_all self id times st).1.
Proof.
  induction times as [|t times IH]; intros last s st Hmir Hinc Hpos; [done|].
  apply increasing_cons in Hinc as [Hlt Hinc].
  apply Forall_cons in Hpos as [Ht Hpos].
  assert (py_or (Some w) (default_window cfg) = w) as Ew
    by (simpl; case_decide; [lia|done]).
  assert (py_or (Some m) (default_requests cfg) = m) as Em
    by (simpl; by case_decide).
  destruct (mirrors_step last _ _ t Hmir Hlt Ht) as [Hcount Hmir'].
  rewrite demo_check_all_cons. cbn [check_all]. unfold Redis.bind, Redis.ret.
  unfold RateLimiter.is_allowed. rewrite is_allowed_spec, Hcount, Ew, Em.
  set (s1 := partial_alter _ _ s).
  set (st1 := <[ id := _ ]> st).
  specialize (IH t s1 st1).
  destruct (check_all cfg id (Some m) (Some w) times s1) as [rs s2].
  cbn [fst snd] in *.
  f_equal. apply IH; [|done..].
  unfold s1, st1, Demo.readings. rewrite lookup_partial_alter_eq, lookup_insert_eq.
  exact Hmir'.
Qed.

End side_by_side.

(** X9.  On requests at increasing readings the Redis limiter and the
    in-memory limiter of the demo agree.  For a limit other than 0 and a
    positive window, both starting without a record for the identifier, and
    readings since the epoch that increase, however far apart: the two
    return the same verdicts and the same metadata, request by request. *)
Theorem redis_limiter_agrees_with_demo cfg id m w times s st :
  m ≠ 0 → 1 ≤ w →
  s !! key_of id = None →
  Demo.readings st id = [] →
  increasing times = true →
  since_epoch times = true →
  (check_all cfg id (Some m) (Some w) times s).1
  = (Demo.check_all (Demo.Simple m w) id times st).1.
Proof.
  intros Hm Hw Hs Hst Hinc Hpos.
  destruct times as [|t0 times]; [done|].
  apply (check_all_mirrors cfg id m w Hm Hw (t0 :: times) (t0 - 1)).
  - rewrite Hs, Hst. split_and!; [apply NoDup_nil_2|constructor|done].
  - cbn [increasing]. rewrite bool_decide_true by lia. exact Hinc.
  - apply Forall_forall. intros t Ht. apply list_elem_of_In in Ht.
    pose proof (proj1 (forallb_forall _ _) Hpos t Ht) as Hb.
    by apply bool_decide_eq_true in Hb.
Qed.

Lemma redis_limiter_agrees_with_demo_witness :
  (check_all (Config 100 60) "u" (Some 2) (Some 5)
     [0; 1000000; 2000000; 5500000; 6000000; 7000000] ∅).1
  = (Demo.check_all (Demo.Simple 2 5) "u"
       [0; 1000000; 2000000; 5500000; 6000000; 7000000] ∅).1.
Proof.
  apply (redis_limiter_agrees_with_demo (Config 100 60) "u" 2 5);
    [lia | lia | reflexivity | reflexivity | reflexivity | reflexivity].
Defined.

(** ** The identifier of a request *)

Lemma lstrip_idemp s : Py.lstrip (Py.lstrip s) = Py.lstrip s.
Proof.
  induction s as [|c s IH]; simpl; [done|].
  destruct (Py.isspace c) eqn:E; [done|]. simpl. by rewrite E.
Qed.

Lemma rstrip_idemp s : Py.rstrip (Py.rstrip s) = Py.rstrip s.
Proof.
  induction s as [|c s IH]; simpl; [done|].
  destruct (Py.rstrip s) as [|c' r] eqn:Er.
  - destruct (Py.isspace c) eqn:E; simpl; [done|]. by rewrite E.
  - cbn [Py.rstrip]. cbn [Py.rstrip] in IH. by rewrite IH.
Qed.

Lemma lstrip_solid s : starts_solid (Py.lstrip s) = true.
Proof.
  induction s as [|c s IH]; simpl; [done|].
  destruct (Py.isspace c) eqn:E; [done|]. simpl. by rewrite E.
Qed.

Lemma solid_lstrip s : starts_solid s = true → Py.lstrip s = s.
Proof. destruct s as [|c s]; simpl; [done|]. by destruct (Py.isspace c). Qed.

Lemma rstrip_solid s : starts_solid s = true → starts_solid (Py.rstrip s) = true.
Proof.
  destruct s as [|c s]; simpl; [done|]. intros E.
  destruct (Py.rstrip s); [|done]. destruct (Py.isspace c) eqn:Ec; [done|].
  simpl. by rewrite Ec.
Qed.

Lemma strip_idemp s : Py.strip (Py.strip s) = Py.strip s.
Proof.
  unfold Py.strip.
  rewrite (solid_lstrip (Py.rstrip _)) by apply rstrip_solid, lstrip_solid.
  apply rstrip_idemp.
Qed.

Lemma strip_fixed s : Py.strip s = s → starts_solid s = true ∧ Py.rstrip s = s.
Proof.
  intros H. assert (starts_solid s = true) as Hs.
  { rewrite <- H. apply rstrip_solid, lstrip_solid. }
  split; [done|]. unfold Py.strip in H. by rewrite solid_lstrip in H.
Qed.

Lemma occurs_lstrip c s : Py.occurs c s = false → Py.occurs c (Py.lstrip s) = false.
Proof.
  induction s as [|c' s IH]; simpl; [done|]. intros H.
  apply orb_false_elim in H as [H1 H2].
  destruct (Py.isspace c'); [by apply IH|]. simpl. by rewrite H1, H2.
Qed.

Lemma occurs_rstrip c s : Py.occurs c s = false → Py.occurs c (Py.rstrip s) = false.
Proof.
  induction s as [|c' s IH]; simpl; [done|]. intros H.
  apply orb_false_elim in H as [H1 H2]. specialize (IH H2).
  destruct (Py.rstrip s).
  - destruct (Py.isspace c'); [done|]. simpl. by rewrite H1.
  - cbn [Py.occurs]. cbn [Py.occurs] in IH. by rewrite H1, IH.
Qed.

Lemma occurs_split_first sep s : Py.occurs sep (Py.split_first sep s) = false.
Proof.
  induction s as [|c s IH]; simpl; [done|].
  destruct (Ascii.eqb c sep) eqn:E; [done|]. simpl. by rewrite E, IH.
Qed.

Lemma split_first_app sep a rest :
  Py.occurs sep a = false →
  Py.split_first sep (a +:+ rest) = a +:+ Py.split_first sep rest.
Proof.
  induction a as [|c a IH]; simpl; [done|]. intros H.
  apply orb_false_elim in H as [H1 H2]. by rewrite H1, IH.
Qed.

Lemma append_empty_r s : s +:+ "" = s.
Proof.
  induction s as [|c s IH]; [done|].
  change (String c (s +:+ "") = String c s). by rewrite IH.
Qed.

Lemma blank_no_comma s : blank s = true → Py.occurs "," s = false.
Proof.
  induction s as [|c s IH]; simpl; [done|]. intros H.
  apply andb_prop in H as [H1 H2]. rewrite IH by done.
  destruct (Ascii.eqb c ",") eqn:E; [|done].
  apply Ascii.eqb_eq in E. by subst.
Qed.

Lemma lstrip_blank lead s : blank lead = true → Py.lstrip (lead +:+ s) = Py.lstrip s.
Proof.
  induction lead as [|c lead IH]; simpl; [done|]. intros H.
  apply andb_prop in H as [-> H2]. by apply IH.
Qed.

Lemma rstrip_all_blank s : blank s = true → Py.rstrip s = "".
Proof.
  induction s as [|c s IH]; simpl; [done|]. intros H.
  apply andb_prop in H as [Hc H]. by rewrite IH, Hc.
Qed.

Lemma rstrip_blank s trail : blank trail = true → Py.rstrip (s +:+ trail) = Py.rstrip s.
Proof.
  intros Ht. induction s as [|c s IH]; simpl.
  - by apply rstrip_all_blank.
  - by rewrite IH.
Qed.

Lemma rstrip_empty s : Py.rstrip s = "" → blank s = true.
Proof.
  induction s as [|c s IH]; simpl; [done|].
  destruct (Py.rstrip s); [|done]. destruct (Py.isspace c); [|done].
  intros _. by apply IH.
Qed.

Lemma blank_lstrip s : blank s = true → blank (Py.lstrip s) = true.
Proof.
  induction s as [|c s IH]; simpl; [done|]. intros H.
  apply andb_prop in H as [Hc H]. rewrite Hc. by apply IH.
Qed.

Lemma lstrip_blank_inv s : blank (Py.lstrip s) = true → blank s = true.
Proof.
  induction s as [|c s IH]; simpl; [done|].
  destruct (Py.isspace c) eqn:E; simpl; [by apply IH|]. by rewrite E.
Qed.

Lemma strip_empty s : Py.strip s = "" ↔ blank s = true.
Proof.
  unfold Py.strip. split.
  - intros H. by apply lstrip_blank_inv, rstrip_empty.
  - intros H. by apply rstrip_all_blank, blank_lstrip.
Qed.

Lemma strip_padded lead s trail :
  blank lead = true → blank trail = true → Py.strip s = s →
  Py.strip (lead +:+ s +:+ trail) = s.
Proof.
  intros Hl Ht Hs. apply strip_fixed in Hs as [Hsolid Hr].
  unfold Py.strip. rewrite lstrip_blank by done.
  destruct s as [|c s].
  - simpl. by apply rstrip_all_blank, blank_lstrip.
  - rewrite solid_lstrip by done. by rewrite rstrip_blank.
Qed.

Lemma forwarded_identifier f request hdr :
  f ∈ default_identifiers →
  x_forwarded_for request = Some hdr → hdr ≠ "" →
  f request = Py.strip (Py.split_first "," hdr).
Proof.
  intros Hf Hx Hne. unfold default_identifiers in Hf.
  assert (Py.truthy (Some hdr) = true) as Ht by (by destruct hdr).
  repeat (apply elem_of_cons in Hf as [->|Hf]);
    [..|by apply elem_of_nil in Hf];
    unfold MiddlewareFastapi._default_identifier,
      MiddlewareFastapi.dependency_default_identifier,
      MiddlewareFlask._default_identifier, DemoMiddleware._get_client_ip;
    by rewrite Hx, Ht.
Qed.

(** X10.  A client address written in front of the proxies' entries of
    [X-Forwarded-For], with any whitespace around it, is the identifier of
    the request for each of the default identifier functions
    (middleware_fastapi.py middleware and dependency, middleware_flask.py,
    demo_no_redis.py), whatever [X-Real-IP] and the peer address are: the
    address has no comma and no whitespace at its ends, and what follows it
    is empty or begins with a comma. *)
Theorem forwarded_for_names_first_hop request lead client trail tail :
  x_forwarded_for request = Some (lead +:+ client +:+ trail +:+ tail) →
  client ≠ "" →
  blank lead = true → blank trail = true →
  Py.occurs "," client = false → Py.strip client = client →
  Py.split_first "," tail = "" →
  Forall (λ f, f request = client) default_identifiers.
Proof.
  intros Hx Hne Hl Ht Hc Hs Htail. apply Forall_forall. intros f Hf.
  rewrite (forwarded_identifier f request _ Hf Hx).
  - rewrite split_first_app by by apply blank_no_comma.
    rewrite split_first_app by done.
    rewrite split_first_app by by apply blank_no_comma.
    rewrite Htail, append_empty_r. by apply strip_padded.
  - destruct lead; [|done]. destruct client; [done|]. done.
Qed.

Lemma forwarded_for_names_first_hop_witness :
  Forall (λ f, f (MkRequest (Some " 203.0.113.7 , 10.0.0.1") (Some "10.0.0.9")
                            (Some "10.0.0.2") "/api/data") = "203.0.113.7")
         default_identifiers.
Proof.
  apply (forwarded_for_names_first_hop _ " " "203.0.113.7" " " ", 10.0.0.1");
    [reflexivity|done|reflexivity..].
Defined.

(** X11.  Whenever [X-Forwarded-For] is present and not empty, the
    identifier each default identifier function derives has no comma and no
    whitespace at either end ([strip] leaves it unchanged); and it is the
    empty string exactly when nothing but whitespace precedes the first
    comma of the header. *)
Theorem forwarded_identifier_shape request hdr :
  x_forwarded_for request = Some hdr → hdr ≠ "" →
  Forall (λ f, Py.occurs "," (f request) = false ∧
               Py.strip (f request) = f request ∧
               (f request = "" ↔ blank (Py.split_first "," hdr) = true))
         default_identifiers.
Proof.
  intros Hx Hne. apply Forall_forall. intros f Hf.
  rewrite (forwarded_identifier f request hdr Hf Hx Hne). split_and!.
  - apply occurs_rstrip, occurs_lstrip, occurs_split_first.
  - apply strip_idemp.
  - apply strip_empty.
Qed.

Lemma forwarded_identifier_shape_witness :
  Forall (λ f, Py.occurs "," (f (MkRequest (Some " , 10.0.0.1") None None "/")) = false ∧
               Py.strip (f (MkRequest (Some " , 10.0.0.1") None None "/"))
               = f (MkRequest (Some " , 10.0.0.1") None None "/") ∧
               (f (MkRequest (Some " , 10.0.0.1") None None "/") = "" ↔
                blank (Py.split_first "," " , 10.0.0.1") = true))
         default_identifiers.
Proof.
  apply (forwarded_identifier_shape (MkRequest (Some " , 10.0.0.1") None None "/"));
    [reflexivity|done].
Defined.

(** ** The route dependencies *)

(** X12.  The dependency of middleware_fastapi.py raises exactly when the
    count of the identifier at the time of the call has reached the limit in
    force.  What it raises is a 429 whose [Retry-After] is the whole window
    in force, whose [X-RateLimit-Remaining] is 0 and whose other two headers
    give the limit and the end of the window; otherwise it returns metadata
    with [remaining = limit - count - 1].  Either way the store is left as
    [is_allowed] leaves it. *)
Theorem dependency_raises_when_limit_reached cfg m w f request now s :
  let id := default MiddlewareFastapi.dependency_default_identifier f request in
  let count := (RateLimiter.get_usage cfg id w now s).1 in
  let m' := py_or m (default_requests cfg) in
  let w' := py_or w (default_window cfg) in
  let r := MiddlewareFastapi.rate_limit_dependency cfg m w f request now s in
  r.2 = (RateLimiter.is_allowed cfg id m w now s).2 ∧
  match r.1 with
  | inr md => count < m' ∧ limit md = m' ∧ remaining md = m' - count - 1 ∧
              retry_after md = 0
  | inl e => m' ≤ count ∧ status_code e = 429 ∧
             headers e = {[ "X-RateLimit-Limit" := Py.str_int m';
                            "X-RateLimit-Remaining" := "0";
                            "X-RateLimit-Reset" := Py.str_int (int (now + seconds w'));
                            "Retry-After" := Py.str_int w' ]} ∧
             detail_retry_after (detail e) = w'
  end.
Proof.
  intros id count m' w' r. subst r.
  unfold MiddlewareFastapi.rate_limit_dependency. fold id.
  unfold Redis.bind.
  pose proof (is_allowed_reply 0 cfg id m w now s) as Hr.
  fold (RateLimiter.is_allowed cfg id m w now s) in Hr.
  fold (RateLimiter.get_usage cfg id w now s) in Hr. fold count m' w' in Hr.
  destruct (RateLimiter.is_allowed cfg id m w now s) as [[a md] s1].
  cbn [fst snd] in *. unfold outcome in Hr. injection Hr as -> ->.
  case_bool_decide as Hlt; cbn [negb Redis.ret fst snd].
  - split; [done|]. cbn. rewrite bool_decide_false by lia. split_and!; [done|done|lia|done].
  - split; [done|]. cbn. rewrite bool_decide_true by lia. split_and!; [lia|done|done|done].
Qed.

Lemma string_length_app a b : String.length (a +:+ b) = (String.length a + String.length b)%nat.
Proof.
  induction a as [|c a IH]; [done|].
  change (S (String.length (a +:+ b)) = S (String.length a + String.length b)).
  by rewrite IH.
Qed.

Lemma route_identifier_longer path base : AppAdapters.route_identifier path base ≠ base.
Proof.
  intros H. apply (f_equal String.length) in H.
  unfold AppAdapters.route_identifier in H.
  rewrite !string_length_app in H. simpl in H. lia.
Qed.

Lemma append_sep_inj c p p' b b' :
  Py.occurs c p = false → Py.occurs c p' = false →
  p +:+ String c b = p' +:+ String c b' → p = p' ∧ b = b'.
Proof.
  revert p'. induction p as [|x p IH]; intros [|x' p'] Hp Hp' H.
  - by injection H as ->.
  - exfalso. injection H as -> _. simpl in Hp'. by rewrite Ascii.eqb_refl in Hp'.
  - exfalso. injection H as -> _. simpl in Hp. by rewrite Ascii.eqb_refl in Hp.
  - injection H as -> H. simpl in Hp, Hp'.
    apply orb_false_elim in Hp as [_ Hp]. apply orb_false_elim in Hp' as [_ Hp'].
    destruct (IH p' Hp Hp' H) as [-> ->]. done.
Qed.

(** X13.  The route-scoped identifiers of app.py tell routes and clients
    apart as long as the paths contain no colon: two of them are equal only
    for the same path and the same client identifier (which may itself
    contain colons, as an IPv6 address does). *)
Theorem route_identifier_inj path1 base1 path2 base2 :
  Py.occurs ":" path1 = false → Py.occurs ":" path2 = false →
  AppAdapters.route_identifier path1 base1 = AppAdapters.route_identifier path2 base2 →
  path1 = path2 ∧ base1 = base2.
Proof.
  intros H1 H2 H. unfold AppAdapters.route_identifier in H.
  apply (inj (String.append _)) in H.
  by apply (append_sep_inj ":" path1 path2 base1 base2).
Qed.

Lemma route_identifier_inj_witness :
  "/api/strict" = "/api/strict" ∧ "2001:db8::1" = "2001:db8::1".
Proof.
  apply (route_identifier_inj "/api/strict" "2001:db8::1" "/api/strict" "2001:db8::1");
    reflexivity.
Defined.

(** X14.  In app.py a route-scoped check never touches the record the global
    limiter keeps for the same client: after the dependency has run, allowed
    or not, [is_allowed] and [get_usage] on the client's own identifier
    reply as they would have replied before it, whatever the rounding of
    each call. *)
Theorem route_check_leaves_global_record eps eps1 eps2 cfg m w f request now s M W t :
  let base := default MiddlewareFastapi.dependency_default_identifier f request in
  let s' := (AppAdapters.rate_limit_dependency eps cfg m w f request now s).2 in
  s' !! key_of base = s !! key_of base ∧
  (App.is_allowed eps1 cfg base M W t s').1 = (App.is_allowed eps1 cfg base M W t s).1 ∧
  (App.get_usage eps2 cfg base W t s').1 = (App.get_usage eps2 cfg base W t s).1.
Proof.
  intros base s'.
  assert (s' !! key_of base = s !! key_of base) as Hk.
  { subst s'. unfold AppAdapters.rate_limit_dependency. fold base.
    unfold Redis.bind.
    pose proof (is_allowed_other eps cfg
                  (AppAdapters.route_identifier (url_path request) base) m w now s
                  (key_of base)) as Ho.
    fold (App.is_allowed eps cfg (AppAdapters.route_identifier (url_path request) base)
            m w now s) in Ho.
    destruct (App.is_allowed eps cfg _ m w now s) as [[a md] s1]. cbn [fst snd] in *.
    destruct a; cbn [negb Redis.ret snd]; apply Ho;
      intros E; apply key_of_inj in E; symmetry in E;
      by apply route_identifier_longer in E. }
  split; [done|].
  unfold App.is_allowed, App.get_usage.
  by rewrite !is_allowed_spec, !get_usage_spec, Hk.
Qed.

(** ** One key for the middleware and the route *)

Lemma expected_served_blocked M m n : ∀ k i b,
  m ≤ k + 1 → expected_served M m k n !! i = Some b → b = false.
Proof.
  induction n as [|n IH]; intros k i b Hk; simpl; [done|].
  case_bool_decide.
  - rewrite (bool_decide_false (k + 1 < m)) by lia.
    destruct i as [|i]; simpl; [by intros [= <-]|]. apply IH. lia.
  - destruct i as [|i]; simpl; [by intros [= <-]|]. by apply IH.
Qed.

Lemma expected_served_lookup M m n : ∀ j i b,
  m ≤ M → 0 ≤ j →
  expected_served M m (2 * j) n !! i = Some b →
  b = bool_decide (2 * (j + Z.of_nat i) + 1 < m).
Proof.
  induction n as [|n IH]; intros j i b HmM Hj; simpl; [done|].
  case_bool_decide as HM.
  - case_bool_decide as Hm.
    + destruct i as [|i]; simpl.
      * intros [= <-]. rewrite bool_decide_true by lia. done.
      * replace (2 * j + 2) with (2 * (j + 1)) by lia. intros Hb.
        apply IH in Hb; [|done|lia]. rewrite Hb. apply bool_decide_ext. lia.
    + destruct i as [|i]; simpl.
      * intros [= <-]. rewrite bool_decide_false by lia. done.
      * intros Hb. apply expected_served_blocked in Hb; [|lia].
        rewrite Hb. rewrite bool_decide_false by lia. done.
  - destruct i as [|i]; simpl.
    + intros [= <-]. rewrite bool_decide_false by lia. done.
    + intros Hb. apply expected_served_blocked in Hb; [|lia].
      rewrite Hb. rewrite bool_decide_false by lia. done.
Qed.

Lemma dependency_run cfg m w f request now s :
  MiddlewareFastapi.rate_limit_dependency cfg m w f request now s =
  let id := default MiddlewareFastapi.dependency_default_identifier f request in
  let r := RateLimiter.is_allowed cfg id m w now s in
  (if r.1.1 then inr r.1.2 else inl (rate_limit_exceeded r.1.2), r.2).
Proof.
  unfold MiddlewareFastapi.rate_limit_dependency, Redis.bind. cbv zeta.
  destruct (RateLimiter.is_allowed cfg _ m w now s) as [[a md] s1].
  by destruct a.
Qed.

Section shared_key.
Context (cfg : RateLimiterConfig) (M m w : option Z).
Context (self : MiddlewareFastapi.RateLimitMiddleware).
Context (f : option (Request → string)) (request : Request).
Let M' := py_or M (default_requests cfg).
Let m' := py_or m (default_requests cfg).
Let w' := py_or w (default_window cfg).
Let W := seconds w'.
Let id := MiddlewareFastapi.identifier_func self request.
Hypothesis w_pos : 1 ≤ w'.
Hypothesis self_limiter : MiddlewareFastapi.rate_limiter self = cfg.
Hypothesis self_limit : MiddlewareFastapi.max_requests self = M.
Hypothesis self_window : MiddlewareFastapi.window_seconds self = w.
Hypothesis same_identifier :
  default MiddlewareFastapi.dependency_default_identifier f request = id.

(** While the key tracks its events, the requests are served as
    [expected_served] tells from the number of events on the key. *)
Lemma serve_all_tracks times : ∀ lo last z s,
  tracks W lo last z (s !! key_of id) →
  increasing (last :: readings_of times) = true →
  Forall (λ t, lo ≤ t < lo + W) (readings_of times) →
  (serve_all self (MiddlewareFastapi.rate_limit_dependency cfg m w f) request times s).1
  = expected_served M' m' (Z.of_nat (size z)) (length times).
Proof.
  set (dep := MiddlewareFastapi.rate_limit_dependency cfg m w f).
  induction times as [|[t t'] times IH]; intros lo last z s Ht Hinc Hwin; [done|].
  change (readings_of ((t, t') :: times)) with (t :: t' :: readings_of times) in *.
  apply increasing_cons in Hinc as [Hlt Hinc].
  pose proof Hinc as Hinc1. apply increasing_cons in Hinc1 as [Hlt' Hinc'].
  apply Forall_cons in Hwin as [[Hlo Hhi] Hwin].
  apply Forall_cons in Hwin as [[Hlo' Hhi'] Hwin].
  cbn [serve_all length expected_served].
  unfold MiddlewareFastapi.dispatch.
  rewrite self_limiter, self_limit, self_window. fold id.
  unfold Redis.bind, Redis.ret. unfold RateLimiter.is_allowed.
  rewrite is_allowed_spec. fold M' w'.
  rewrite (tracks_count cfg w lo last z _ t Ht) by (fold w' W; lia).
  pose proof (tracks_check cfg M w w_pos lo last z _ t Ht Hlt Hlo Hhi) as Ht1.
  pose proof (tracks_size cfg M w lo last z _ t Ht Hlt) as Hsz1.
  fold M' in Ht1, Hsz1.
  set (s1 := partial_alter _ _ s) in *.
  assert (s1 !! key_of id = after_check 0 cfg M w t (s !! key_of id)) as Hs1
    by (unfold s1; by rewrite lookup_partial_alter_eq).
  rewrite <- Hs1 in Ht1.
  unfold outcome at 1. cbn [fst snd].
  destruct (bool_decide (Z.of_nat (size z) < M')) eqn:HM.
  - change (dep request t' s1)
      with (MiddlewareFastapi.rate_limit_dependency cfg m w f request t' s1).
    rewrite dependency_run. cbv zeta. rewrite same_identifier.
    unfold RateLimiter.is_allowed. rewrite is_allowed_spec. fold m' w'.
    rewrite (tracks_count cfg w lo t _ _ t' Ht1) by (fold w' W; lia).
    pose proof (tracks_check cfg m w w_pos lo t _ _ t' Ht1 Hlt' Hlo' Hhi') as Ht2.
    pose proof (tracks_size cfg m w lo t _ _ t' Ht1 Hlt') as Hsz2.
    fold m' in Ht2, Hsz2.
    set (s2 := partial_alter _ _ s1) in *.
    assert (s2 !! key_of id = after_check 0 cfg m w t' (s1 !! key_of id)) as Hs2
      by (unfold s2; by rewrite lookup_partial_alter_eq).
    rewrite <- Hs2 in Ht2.
    specialize (IH lo t' _ s2 Ht2 Hinc' Hwin).
    rewrite Hsz2, Hsz1 in IH.
    unfold outcome. cbn [fst snd]. rewrite Hsz1.
    destruct (serve_all self dep request times s2) as [rs s3]. cbn [fst snd] in *.
    rewrite IH.
    destruct (bool_decide (Z.of_nat (size z) + 1 < m')); cbn [fst snd]; f_equal.
    f_equal. lia.
  - pose proof (tracks_later cfg m w lo t t' _ _ Ht1 ltac:(lia)) as Ht2.
    specialize (IH lo t' _ s1 Ht2 Hinc' Hwin).
    destruct (serve_all self dep request times s1) as [rs s3]. cbn [fst snd] in *.
    by rewrite IH.
Qed.

End shared_key.

(** X15.  In middleware_fastapi.py the global middleware and a route's
    dependency count on one and the same key when they derive the same
    identifier (as they do as wired in example_fastapi.py), so every request
    that reaches the route has already been counted once by the middleware.
    For requests of one client from an absent key, at increasing readings
    within one window, with the same window for both limiters and a route
    limit not above the global one: the handler of the route runs for
    request [i] (from 0) exactly when [2 * i + 1 < m], where [m] is the
    route's limit; a route limit of 10 serves 5 requests, and a route limit
    of 1 serves none. *)
Theorem shared_key_halves_route_limit cfg M m w f_mw f_dep request times s i served :
  let self := MiddlewareFastapi.init cfg f_mw M w in
  let id := MiddlewareFastapi.identifier_func self request in
  1 ≤ py_or w (default_window cfg) →
  py_or m (default_requests cfg) ≤ py_or M (default_requests cfg) →
  default MiddlewareFastapi.dependency_default_identifier f_dep request = id →
  s !! key_of id = None →
  increasing (readings_of times) = true →
  within_window (py_or w (default_window cfg)) (readings_of times) = true →
  (serve_all self (MiddlewareFastapi.rate_limit_dependency cfg m w f_dep)
     request times s).1 !! i = Some served →
  served = bool_decide (2 * Z.of_nat i + 1 < py_or m (default_requests cfg)).
Proof.
  intros self id Hw HmM Hid Habs Hinc Hwin Hi.
  set (w' := py_or w (default_window cfg)) in *.
  destruct times as [|[t0 t0'] times]; [done|].
  assert (∃ l, readings_of ((t0, t0') :: times) = t0 :: l) as [l Hl] by (by eexists).
  pose proof Hwin as Hhi. rewrite Hl in Hhi. apply within_window_forall in Hhi.
  pose proof Hinc as Hlo. rewrite Hl in Hlo. apply increasing_above in Hlo.
  assert (Forall (λ t, t0 ≤ t < t0 + seconds w') (readings_of ((t0, t0') :: times)))
    as Hall.
  { rewrite Hl. apply Forall_cons in Hhi as [? Hhi]. constructor; [lia|].
    apply Forall_forall. intros t Ht.
    rewrite Forall_forall in Hhi, Hlo. specialize (Hhi t Ht). specialize (Hlo t Ht). lia. }
  assert (increasing ((t0 - 1) :: readings_of ((t0, t0') :: times)) = true) as Hinc'.
  { rewrite Hl. rewrite Hl in Hinc.
    change (bool_decide (t0 - 1 < t0) && increasing (t0 :: l) = true).
    by rewrite bool_decide_true by lia. }
  pose proof (tracks_absent cfg w t0 (t0 - 1)) as Ht. rewrite <- Habs in Ht.
  rewrite (serve_all_tracks cfg M m w self f_dep request Hw eq_refl eq_refl eq_refl Hid
             _ t0 (t0 - 1) ∅ s Ht Hinc' Hall) in Hi.
  rewrite map_size_empty in Hi. change (Z.of_nat 0) with (2 * 0) in Hi.
  apply expected_served_lookup in Hi; [|done|done].
  rewrite Hi. apply bool_decide_ext. lia.
Qed.

Lemma shared_key_halves_route_limit_witness :
  false = bool_decide (2 * Z.of_nat 1 + 1 < py_or (Some 3) (default_requests (Config 100 60))).
Proof.
  apply (shared_key_halves_route_limit (Config 100 60) (Some 100) (Some 3) (Some 60)
           None None (MkRequest (Some "203.0.113.7") None (Some "10.0.0.2") "/api/strict")
           [(1000000, 1000001); (2000000, 2000001); (3000000, 3000001)] ∅ 1 false);
    [by vm_compute|by vm_compute|reflexivity|reflexivity|reflexivity|reflexivity|
     by vm_compute].
Defined.
